(** * SkeletonKey: a shallow embedding of the trace writer, the trace reader
    and the pthread interposition shim (src/src/skeletonkey.cpp,
    src/src/reader.cpp), with the properties of its trace format. *)

From Stdlib Require Import String ZArith List Lia Bool Sorted.
Import ListNotations.
Open Scope Z_scope.

(** ** Machine integers

    Unsigned and signed fixed-width integers are represented as [Z] with the
    C++ conversions written out. *)

(** [static_cast<uint64_t>(x)] for any integer [x] (two's complement). *)
Definition u64 (x : Z) : Z := x mod 2 ^ 64.

(** [static_cast<uint32_t>(x)]. *)
Definition u32 (x : Z) : Z := x mod 2 ^ 32.

(** Conversion of a 64-bit unsigned value to [int32_t] (keeps the low 32 bits,
    read as two's complement). *)
Definition i32 (x : Z) : Z :=
  let y := x mod 2 ^ 32 in if y <? 2 ^ 31 then y else y - 2 ^ 32.

Definition is_u64 (x : Z) : Prop := 0 <= x < 2 ^ 64.
Definition is_u32 (x : Z) : Prop := 0 <= x < 2 ^ 32.
Definition is_i32 (x : Z) : Prop := - 2 ^ 31 <= x < 2 ^ 31.

(** ** Varint codec (VarIntWriter::encodeVarInt, VarIntReader::readVarInt) *)

(** The do-while loop of [VarIntWriter::encodeVarInt]:
<<
    do {
        uint8_t byte = value & 0x7F;
        value >>= 7;
        if (value) byte |= 0x80;
        buffer.push_back(byte);
    } while (value);
>>
    [fuel] bounds the number of iterations; [encodeVarInt] gives as much fuel
    as the value has bits, which is never exhausted (each iteration removes
    seven bits). *)
Fixpoint encode_loop (fuel : nat) (value : Z) : list Z :=
  match fuel with
  | O => []
  | S fuel' =>
      let byte := Z.land value 127 in
      let value' := Z.shiftr value 7 in
      if value' =? 0 then [byte]
      else Z.lor byte 128 :: encode_loop fuel' value'
  end.

Definition encodeVarInt (value : Z) : list Z :=
  encode_loop (S (Z.to_nat (Z.log2 value))) value.

(** The while loop of [VarIntReader::readVarInt], run on the bytes from
    [pos_] to the end of the buffer.  It returns the value and the number of
    bytes consumed.
<<
    while (pos_ < buffer_.size()) {
        uint8_t byte = buffer_[pos_++];
        result |= static_cast<uint64_t>(byte & 0x7F) << shift;
        if ((byte & 0x80) == 0) break;
        shift += 7;
    }
>>
    [result] is a [uint64_t], so the update is taken modulo [2^64].  (A shift
    by 64 or more, reached only after ten continuation bytes, is undefined in
    C++; the model takes the mathematical shift truncated to 64 bits.) *)
Fixpoint read_loop (rest : list Z) (result shift : Z) : Z * nat :=
  match rest with
  | [] => (result, O)
  | byte :: rest' =>
      let result' := u64 (Z.lor result (Z.shiftl (Z.land byte 127) shift)) in
      if Z.land byte 128 =? 0 then (result', 1%nat)
      else let '(r, n) := read_loop rest' result' (shift + 7) in (r, S n)
  end.

(** [VarIntReader]: the whole trace buffer and the read position. *)
Record VarIntReader := mkReader { buffer_ : list Z; pos_ : nat }.

Definition remaining (rd : VarIntReader) : list Z := skipn (pos_ rd) (buffer_ rd).

Definition readVarInt (rd : VarIntReader) : Z * VarIntReader :=
  let '(v, n) := read_loop (remaining rd) 0 0 in
  (v, mkReader (buffer_ rd) (pos_ rd + n)).

(** [VarIntReader::eof]: [pos_ >= buffer_.size()]. *)
Definition eof (rd : VarIntReader) : bool := (length (buffer_ rd) <=? pos_ rd)%nat.

(** Decoding a whole buffer as one varint from position 0. *)
Definition decodeVarInt (bytes : list Z) : Z := fst (readVarInt (mkReader bytes 0)).

(** ** Event kinds and records *)

(** [enum class EventType : uint8_t] (the writer's and the reader's copies
    agree). *)
Inductive EventType :=
| ThreadCreate
| MutexInit | MutexDestroy | MutexLock | MutexLockDone | MutexTryLock
| MutexTryLockDone | MutexTimedLock | MutexTimedLockDone | MutexUnlock
| RWLockInit | RWLockDestroy | RWLockRead | RWLockReadDone | RWLockTryRead
| RWLockTryReadDone | RWLockTimedRead | RWLockTimedReadDone | RWLockWrite
| RWLockWriteDone | RWLockTryWrite | RWLockTryWriteDone | RWLockTimedWrite
| RWLockTimedWriteDone | RWLockUnlock
| CondInit | CondDestroy | CondSignal | CondBroadcast | CondWait | CondWaitDone
| CondTimedWait | CondTimedWaitDone.

(** [static_cast<uint8_t>(type)]: the enumerators are numbered from 0. *)
Definition EventType_to_u8 (t : EventType) : Z :=
  match t with
  | ThreadCreate => 0
  | MutexInit => 1 | MutexDestroy => 2 | MutexLock => 3 | MutexLockDone => 4
  | MutexTryLock => 5 | MutexTryLockDone => 6 | MutexTimedLock => 7
  | MutexTimedLockDone => 8 | MutexUnlock => 9
  | RWLockInit => 10 | RWLockDestroy => 11 | RWLockRead => 12
  | RWLockReadDone => 13 | RWLockTryRead => 14 | RWLockTryReadDone => 15
  | RWLockTimedRead => 16 | RWLockTimedReadDone => 17 | RWLockWrite => 18
  | RWLockWriteDone => 19 | RWLockTryWrite => 20 | RWLockTryWriteDone => 21
  | RWLockTimedWrite => 22 | RWLockTimedWriteDone => 23 | RWLockUnlock => 24
  | CondInit => 25 | CondDestroy => 26 | CondSignal => 27 | CondBroadcast => 28
  | CondWait => 29 | CondWaitDone => 30 | CondTimedWait => 31
  | CondTimedWaitDone => 32
  end.

(** One event record, as [EventLogger::log] writes it and as the reader's
    [main] loop reconstructs it: [type] is the underlying [uint8_t] of the
    [EventType] (the reader's [static_cast<EventType>] keeps any byte),
    [result] is the signed [int32_t] result, pointers are their 64-bit
    integer bit patterns, [stack] the captured frames. *)
Record Event := mkEvent {
  timestamp : Z;
  tid : Z;
  type : Z;
  ptr1 : Z;
  ptr2 : Z;
  result : Z;
  duration_ns : Z;
  stack : list Z
}.

Definition MAX_STACK_DEPTH : nat := 16.

(** A record the writer can produce: every field in the range of its C++
    type, at most [MAX_STACK_DEPTH] frames. *)
Definition well_formed (e : Event) : Prop :=
  is_u64 (timestamp e) /\ is_u32 (tid e) /\ 0 <= type e < 256 /\
  is_u64 (ptr1 e) /\ is_u64 (ptr2 e) /\ is_i32 (result e) /\
  is_u64 (duration_ns e) /\ (length (stack e) <= MAX_STACK_DEPTH)%nat /\
  Forall is_u64 (stack e).

(** ** The writer's scratch buffer ([VarIntWriter]) *)

Record VarIntWriter := mkWriter { buffer : list Z }.

Definition w_encodeVarInt (w : VarIntWriter) (value : Z) : VarIntWriter :=
  mkWriter (buffer w ++ encodeVarInt value).

Definition w_clear (w : VarIntWriter) : VarIntWriter := mkWriter [].

(** [write(uint64_t)]. *)
Definition w_write (w : VarIntWriter) (value : Z) : VarIntWriter :=
  w_encodeVarInt w value.

(** [write(EventType)]: one raw byte. *)
Definition w_writeType (w : VarIntWriter) (type : Z) : VarIntWriter :=
  mkWriter (buffer w ++ [type]).

(** [writePtr]: the pointer's integer bit pattern as a varint. *)
Definition w_writePtr (w : VarIntWriter) (ptr : Z) : VarIntWriter :=
  w_encodeVarInt w ptr.

Fixpoint w_writeStack_loop (w : VarIntWriter) (frames : list Z) : VarIntWriter :=
  match frames with
  | [] => w
  | f :: fs => w_writeStack_loop (w_encodeVarInt w f) fs
  end.

(** [writeStack(stack, depth)]: the depth, then each of the [depth] frames. *)
Definition w_writeStack (w : VarIntWriter) (frames : list Z) : VarIntWriter :=
  w_writeStack_loop (w_encodeVarInt w (Z.of_nat (length frames))) frames.

(** Lines 171-179 of [EventLogger::log]: the scratch buffer is cleared and
    the record is serialized into it. *)
Definition log_serialize (w : VarIntWriter) (timestamp tid type ptr1 ptr2 result
    duration_ns : Z) (frames : list Z) : VarIntWriter :=
  let w := w_clear w in
  let w := w_write w timestamp in
  let w := w_write w tid in
  let w := w_writeType w type in
  let w := w_writePtr w ptr1 in
  let w := w_writePtr w ptr2 in
  let w := w_write w (u64 result) in
  let w := w_write w duration_ns in
  w_writeStack w frames.

(** The bytes [log_.write] appends to the trace file for a record. *)
Definition serialize (e : Event) : list Z :=
  buffer (log_serialize (mkWriter []) (timestamp e) (tid e) (type e) (ptr1 e)
            (ptr2 e) (result e) (duration_ns e) (stack e)).

(** A trace file is the concatenation of the serialized records. *)
Definition trace_bytes (es : list Event) : list Z := concat (map serialize es).

(** ** The reader (reader.cpp) *)

(** [readEventType]: [buffer_[pos_++]], with no bounds check; reading at the
    end of the buffer is undefined behaviour, modelled as [None]. *)
Definition readEventType (rd : VarIntReader) : option (Z * VarIntReader) :=
  match nth_error (buffer_ rd) (pos_ rd) with
  | Some b => Some (b, mkReader (buffer_ rd) (S (pos_ rd)))
  | None => None
  end.

(** [readPtr]: a varint reinterpreted as a pointer. *)
Definition readPtr (rd : VarIntReader) : Z * VarIntReader := readVarInt rd.

Fixpoint read_frames (n : nat) (rd : VarIntReader) : list Z * VarIntReader :=
  match n with
  | O => ([], rd)
  | S n' =>
      let '(p, rd1) := readPtr rd in
      let '(ps, rd2) := read_frames n' rd1 in
      (p :: ps, rd2)
  end.

(** [readStack]: [uint32_t depth = readVarInt();] then [depth] pointers. *)
Definition readStack (rd : VarIntReader) : list Z * VarIntReader :=
  let '(depth, rd1) := readVarInt rd in
  read_frames (Z.to_nat (u32 depth)) rd1.

(** One iteration of the [while (!reader.eof())] loop of [main]: the fields
    in wire order, with [uint32_t tid] and [int32_t result] conversions. *)
Definition read_event (rd : VarIntReader) : option (Event * VarIntReader) :=
  let '(ts, rd) := readVarInt rd in
  let '(tid', rd) := readVarInt rd in
  match readEventType rd with
  | None => None
  | Some (ty, rd) =>
      let '(p1, rd) := readPtr rd in
      let '(p2, rd) := readPtr rd in
      let '(res, rd) := readVarInt rd in
      let '(dur, rd) := readVarInt rd in
      let '(stk, rd) := readStack rd in
      Some (mkEvent ts (u32 tid') ty p1 p2 (i32 res) dur stk, rd)
  end.

(** The event loop of [main]; [None] is undefined behaviour (a read past the
    end of the buffer).  Every iteration starts on a non-empty remainder and
    consumes at least the timestamp's byte, so [S (length bytes)] iterations
    are never exhausted. *)
Fixpoint process_events (fuel : nat) (rd : VarIntReader) : option (list Event) :=
  match fuel with
  | O => None
  | S fuel' =>
      if eof rd then Some []
      else match read_event rd with
           | None => None
           | Some (e, rd') =>
               match process_events fuel' rd' with
               | Some es => Some (e :: es)
               | None => None
               end
           end
  end.

(** [main] on a trace file whose contents are [bytes]: the records it prints,
    one per loop iteration, and its exit status. *)
Definition reader_main (bytes : list Z) : option (list Event * Z) :=
  match process_events (S (length bytes)) (mkReader bytes 0) with
  | Some es => Some (es, 0)
  | None => None
  end.

(** [eventTypeToString]: the [switch] over the enumerators, with
    ["Unknown"] for any other byte (the [default] case). *)
Definition eventTypeToString (type : Z) : string :=
  match type with
  | 0 => "ThreadCreate"
  | 1 => "MutexInit"
  | 2 => "MutexDestroy"
  | 3 => "MutexLock"
  | 4 => "MutexLockDone"
  | 5 => "MutexTryLock"
  | 6 => "MutexTryLockDone"
  | 7 => "MutexTimedLock"
  | 8 => "MutexTimedLockDone"
  | 9 => "MutexUnlock"
  | 10 => "RWLockInit"
  | 11 => "RWLockDestroy"
  | 12 => "RWLockRead"
  | 13 => "RWLockReadDone"
  | 14 => "RWLockTryRead"
  | 15 => "RWLockTryReadDone"
  | 16 => "RWLockTimedRead"
  | 17 => "RWLockTimedReadDone"
  | 18 => "RWLockWrite"
  | 19 => "RWLockWriteDone"
  | 20 => "RWLockTryWrite"
  | 21 => "RWLockTryWriteDone"
  | 22 => "RWLockTimedWrite"
  | 23 => "RWLockTimedWriteDone"
  | 24 => "RWLockUnlock"
  | 25 => "CondInit"
  | 26 => "CondDestroy"
  | 27 => "CondSignal"
  | 28 => "CondBroadcast"
  | 29 => "CondWait"
  | 30 => "CondWaitDone"
  | 31 => "CondTimedWait"
  | 32 => "CondTimedWaitDone"
  | _ => "Unknown"
  end%string.

(** The offset [main] prints for each record, before its division by [1e9]:
<<
    uint64_t timestamp = reader.readVarInt();
    if (first_timestamp == 0) first_timestamp = timestamp;
    ... (timestamp - first_timestamp) / 1e9 ...
>>
    [first_timestamp] starts at 0 and the subtraction is in [uint64_t]. *)
Fixpoint print_offsets (first_timestamp : Z) (es : list Event) : list Z :=
  match es with
  | [] => []
  | e :: es' =>
      let first' := if first_timestamp =? 0 then timestamp e else first_timestamp in
      u64 (timestamp e - first') :: print_offsets first' es'
  end.

(** ** The interposition shim (skeletonkey.cpp)

    The state one thread sees while it runs a wrapper: its thread-local
    [in_hook] flag, the [EventLogger] singleton, and the platform.  The
    thread's interactions with the platform (each [steady_clock::now()],
    each [backtrace()] and each call of a real pthread function) are
    numbered in the order the thread makes them, and [ticks] counts those
    made so far.  The platform answers the interaction numbered [n]:
    [now()] returns the nanosecond count [steady_at n], [backtrace] captures
    the frames [backtrace_at n], so every read is a fresh one (the clock
    advances and the stack differs from one read to the next as the platform
    chooses).  [gettid] is the thread's id.  The trace file is kept as the
    list of records written to it; its bytes are [trace_bytes] of that
    list. *)
Record Shim := mkShim {
  in_hook : bool;
  initialized_ : bool;
  log_open : bool;
  ticks : nat;
  steady_at : nat -> Z;
  gettid : Z;
  backtrace_at : nat -> list Z;
  trace : list Event
}.

Definition set_in_hook (b : bool) (s : Shim) : Shim :=
  mkShim b (initialized_ s) (log_open s) (ticks s) (steady_at s) (gettid s)
    (backtrace_at s) (trace s).

(** One more interaction with the platform. *)
Definition tick (s : Shim) : Shim :=
  mkShim (in_hook s) (initialized_ s) (log_open s) (S (ticks s)) (steady_at s)
    (gettid s) (backtrace_at s) (trace s).

Definition append_record (e : Event) (s : Shim) : Shim :=
  mkShim (in_hook s) (initialized_ s) (log_open s) (ticks s) (steady_at s)
    (gettid s) (backtrace_at s) (trace s ++ [e]).

(** [steady_clock::now()], as a nanosecond count. *)
Definition steady_clock_now (s : Shim) : Z * Shim := (steady_at s (ticks s), tick s).

(** [backtrace(stack, MAX_STACK_DEPTH)]: the frames of the current stack,
    of which it stores at most [MAX_STACK_DEPTH]. *)
Definition backtrace (s : Shim) : list Z * Shim :=
  (firstn MAX_STACK_DEPTH (backtrace_at s (ticks s)), tick s).

(** [EventLogger::init]: only the first call opens the file; [ok] says
    whether [log_.open] succeeded. *)
Definition EventLogger_init (ok : bool) (s : Shim) : Shim :=
  if initialized_ s then s
  else mkShim (in_hook s) true ok (ticks s) (steady_at s) (gettid s)
         (backtrace_at s) (trace s).

(** [EventLogger::log]: nothing before [init]; otherwise, under
    [write_mutex_], capture the stack, read the clock and the tid,
    serialize, write and flush.  A write on a file that failed to open is a
    no-op of [std::ofstream].  (The [write_mutex_] lock and unlock go
    through the interposed [pthread_mutex_lock]/[unlock] with [in_hook] set,
    so they call the real functions and log nothing; the lock's effect
    between threads is the subject of [LogOrder] below.) *)
Definition log (ty : EventType) (p1 p2 res dur : Z) (s : Shim) : Shim :=
  if negb (initialized_ s) then s
  else
    let '(frames, s) := backtrace s in
    let '(now, s) := steady_clock_now s in
    let ts := u64 now in
    let t := u32 (gettid s) in
    if log_open s
    then append_record (mkEvent ts t (EventType_to_u8 ty) p1 p2 res dur frames) s
    else s.

(** A real (next-in-chain) implementation: its [int] result on the call's
    arguments, when called as the thread's interaction number [n] (the
    result may depend on the time of the call and on the other threads). *)
Definition Impl := list Z -> nat -> Z.

(** What a wrapper call does: return a result, or call through a null
    [real_*] pointer (undefined behaviour: nothing is forwarded). *)
Inductive Outcome :=
| Returned (r : Z) (s : Shim)
| NullCall (s : Shim).

Definition outcome_state (o : Outcome) : Shim :=
  match o with Returned _ s => s | NullCall s => s end.

(** [real_f(args...)] through the function pointer [f]. *)
Definition call_real (f : option Impl) (args : list Z) (s : Shim) : Outcome :=
  match f with
  | None => NullCall s
  | Some g => Returned (g args (ticks s)) (tick s)
  end.

(** The body of a non-blocking wrapper ([pthread_mutex_init], [_destroy],
    [_unlock], the cond and rwlock non-blocking ones, [pthread_create]):
<<
    if (in_hook) return real_f(args);
    in_hook = true;
    int result = real_f(args);
    EventLogger::instance().log(kind, p1, p2, result);
    in_hook = false;
    return result;
>> *)
Definition wrap_simple (f : option Impl) (args : list Z) (kind : EventType)
    (p1 p2 : Z) (s : Shim) : Outcome :=
  if in_hook s then call_real f args s
  else
    let s := set_in_hook true s in
    match call_real f args s with
    | NullCall s' => NullCall s'
    | Returned r s' =>
        let s' := log kind p1 p2 r 0 s' in
        Returned r (set_in_hook false s')
    end.

(** The body of a blocking wrapper ([lock], [trylock], [timedlock],
    [rdlock], ..., [cond_wait], [cond_timedwait]):
<<
    if (in_hook) return real_f(args);
    in_hook = true;
    auto start = std::chrono::steady_clock::now();
    EventLogger::instance().log(pre, p1, p2, 0);
    int result = real_f(args);
    auto duration = duration_cast<nanoseconds>(now() - start).count();
    EventLogger::instance().log(done, p1, p2, result, duration);
    in_hook = false;
    return result;
>>
    The [int64_t] duration is passed as the [uint64_t] [duration_ns]. *)
Definition wrap_blocking (f : option Impl) (args : list Z) (pre done : EventType)
    (p1 p2 : Z) (s : Shim) : Outcome :=
  if in_hook s then call_real f args s
  else
    let s := set_in_hook true s in
    let '(start, s) := steady_clock_now s in
    let s := log pre p1 p2 0 0 s in
    match call_real f args s with
    | NullCall s' => NullCall s'
    | Returned r s' =>
        let '(fin, s') := steady_clock_now s' in
        let s' := log done p1 p2 r (u64 (fin - start)) s' in
        Returned r (set_in_hook false s')
    end.

(** The wrapped entry points, i.e. the [real_*] function pointers. *)
Inductive Symbol :=
| Sym_mutex_init | Sym_mutex_destroy | Sym_mutex_lock | Sym_mutex_trylock
| Sym_mutex_timedlock | Sym_mutex_unlock
| Sym_cond_init | Sym_cond_destroy | Sym_cond_signal | Sym_cond_broadcast
| Sym_cond_wait | Sym_cond_timedwait
| Sym_create
| Sym_rwlock_init | Sym_rwlock_destroy | Sym_rwlock_rdlock | Sym_rwlock_tryrdlock
| Sym_rwlock_timedrdlock | Sym_rwlock_wrlock | Sym_rwlock_trywrlock
| Sym_rwlock_timedwrlock | Sym_rwlock_unlock.

Local Open Scope string_scope.


(** The resolved [real_*] pointers; [None] is [nullptr]. *)
Definition Table := Symbol -> option Impl.



Local Close Scope string_scope.

(** A call of one of the interposed entry points with its arguments
    (pointers and other arguments as integers). *)
Inductive Call :=
| call_mutex_init (mutex attr : Z)
| call_mutex_destroy (mutex : Z)
| call_mutex_lock (mutex : Z)
| call_mutex_trylock (mutex : Z)
| call_mutex_timedlock (mutex abstime : Z)
| call_mutex_unlock (mutex : Z)
| call_cond_init (cond attr : Z)
| call_cond_destroy (cond : Z)
| call_cond_signal (cond : Z)
| call_cond_broadcast (cond : Z)
| call_cond_wait (cond mutex : Z)
| call_cond_timedwait (cond mutex abstime : Z)
| call_rwlock_init (rwlock attr : Z)
| call_rwlock_destroy (rwlock : Z)
| call_rwlock_rdlock (rwlock : Z)
| call_rwlock_tryrdlock (rwlock : Z)
| call_rwlock_timedrdlock (rwlock abstime : Z)
| call_rwlock_wrlock (rwlock : Z)
| call_rwlock_trywrlock (rwlock : Z)
| call_rwlock_timedwrlock (rwlock abstime : Z)
| call_rwlock_unlock (rwlock : Z)
| call_create (thread attr start_routine arg : Z).

(** The interposed functions, one per wrapped entry point, as in
    skeletonkey.cpp (lines 290-676). *)
Section Wrappers.
Variable tbl : Table.

Definition pthread_mutex_init (mutex attr : Z) :=
  wrap_simple (tbl Sym_mutex_init) [mutex; attr] MutexInit mutex 0.
Definition pthread_mutex_destroy (mutex : Z) :=
  wrap_simple (tbl Sym_mutex_destroy) [mutex] MutexDestroy mutex 0.
Definition pthread_mutex_lock (mutex : Z) :=
  wrap_blocking (tbl Sym_mutex_lock) [mutex] MutexLock MutexLockDone mutex 0.
Definition pthread_mutex_trylock (mutex : Z) :=
  wrap_blocking (tbl Sym_mutex_trylock) [mutex] MutexTryLock MutexTryLockDone mutex 0.
Definition pthread_mutex_timedlock (mutex abstime : Z) :=
  wrap_blocking (tbl Sym_mutex_timedlock) [mutex; abstime]
    MutexTimedLock MutexTimedLockDone mutex 0.
Definition pthread_mutex_unlock (mutex : Z) :=
  wrap_simple (tbl Sym_mutex_unlock) [mutex] MutexUnlock mutex 0.
Definition pthread_cond_init (cond attr : Z) :=
  wrap_simple (tbl Sym_cond_init) [cond; attr] CondInit cond 0.
Definition pthread_cond_destroy (cond : Z) :=
  wrap_simple (tbl Sym_cond_destroy) [cond] CondDestroy cond 0.
Definition pthread_cond_signal (cond : Z) :=
  wrap_simple (tbl Sym_cond_signal) [cond] CondSignal cond 0.
Definition pthread_cond_broadcast (cond : Z) :=
  wrap_simple (tbl Sym_cond_broadcast) [cond] CondBroadcast cond 0.
Definition pthread_cond_wait (cond mutex : Z) :=
  wrap_blocking (tbl Sym_cond_wait) [cond; mutex] CondWait CondWaitDone cond mutex.
Definition pthread_cond_timedwait (cond mutex abstime : Z) :=
  wrap_blocking (tbl Sym_cond_timedwait) [cond; mutex; abstime]
    CondTimedWait CondTimedWaitDone cond mutex.
Definition pthread_rwlock_init (rwlock attr : Z) :=
  wrap_simple (tbl Sym_rwlock_init) [rwlock; attr] RWLockInit rwlock 0.
Definition pthread_rwlock_destroy (rwlock : Z) :=
  wrap_simple (tbl Sym_rwlock_destroy) [rwlock] RWLockDestroy rwlock 0.
Definition pthread_rwlock_rdlock (rwlock : Z) :=
  wrap_blocking (tbl Sym_rwlock_rdlock) [rwlock] RWLockRead RWLockReadDone rwlock 0.
Definition pthread_rwlock_tryrdlock (rwlock : Z) :=
  wrap_blocking (tbl Sym_rwlock_tryrdlock) [rwlock]
    RWLockTryRead RWLockTryReadDone rwlock 0.
Definition pthread_rwlock_timedrdlock (rwlock abstime : Z) :=
  wrap_blocking (tbl Sym_rwlock_timedrdlock) [rwlock; abstime]
    RWLockTimedRead RWLockTimedReadDone rwlock 0.
Definition pthread_rwlock_wrlock (rwlock : Z) :=
  wrap_blocking (tbl Sym_rwlock_wrlock) [rwlock] RWLockWrite RWLockWriteDone rwlock 0.
Definition pthread_rwlock_trywrlock (rwlock : Z) :=
  wrap_blocking (tbl Sym_rwlock_trywrlock) [rwlock]
    RWLockTryWrite RWLockTryWriteDone rwlock 0.
Definition pthread_rwlock_timedwrlock (rwlock abstime : Z) :=
  wrap_blocking (tbl Sym_rwlock_timedwrlock) [rwlock; abstime]
    RWLockTimedWrite RWLockTimedWriteDone rwlock 0.
Definition pthread_rwlock_unlock (rwlock : Z) :=
  wrap_simple (tbl Sym_rwlock_unlock) [rwlock] RWLockUnlock rwlock 0.
(** [pthread_create] logs the address of the [pthread_t] handle. *)
Definition pthread_create (thread attr start_routine arg : Z) :=
  wrap_simple (tbl Sym_create) [thread; attr; start_routine; arg]
    ThreadCreate thread 0.

(** The wrapper the target reaches for a call. *)
Definition wrapper (c : Call) : Shim -> Outcome :=
  match c with
  | call_mutex_init m a => pthread_mutex_init m a
  | call_mutex_destroy m => pthread_mutex_destroy m
  | call_mutex_lock m => pthread_mutex_lock m
  | call_mutex_trylock m => pthread_mutex_trylock m
  | call_mutex_timedlock m t => pthread_mutex_timedlock m t
  | call_mutex_unlock m => pthread_mutex_unlock m
  | call_cond_init c a => pthread_cond_init c a
  | call_cond_destroy c => pthread_cond_destroy c
  | call_cond_signal c => pthread_cond_signal c
  | call_cond_broadcast c => pthread_cond_broadcast c
  | call_cond_wait c m => pthread_cond_wait c m
  | call_cond_timedwait c m t => pthread_cond_timedwait c m t
  | call_rwlock_init r a => pthread_rwlock_init r a
  | call_rwlock_destroy r => pthread_rwlock_destroy r
  | call_rwlock_rdlock r => pthread_rwlock_rdlock r
  | call_rwlock_tryrdlock r => pthread_rwlock_tryrdlock r
  | call_rwlock_timedrdlock r t => pthread_rwlock_timedrdlock r t
  | call_rwlock_wrlock r => pthread_rwlock_wrlock r
  | call_rwlock_trywrlock r => pthread_rwlock_trywrlock r
  | call_rwlock_timedwrlock r t => pthread_rwlock_timedwrlock r t
  | call_rwlock_unlock r => pthread_rwlock_unlock r
  | call_create th a f x => pthread_create th a f x
  end.

End Wrappers.

(** The [real_*] pointer a call goes through, and its argument list. *)
Definition symbol_of (c : Call) : Symbol :=
  match c with
  | call_mutex_init _ _ => Sym_mutex_init
  | call_mutex_destroy _ => Sym_mutex_destroy
  | call_mutex_lock _ => Sym_mutex_lock
  | call_mutex_trylock _ => Sym_mutex_trylock
  | call_mutex_timedlock _ _ => Sym_mutex_timedlock
  | call_mutex_unlock _ => Sym_mutex_unlock
  | call_cond_init _ _ => Sym_cond_init
  | call_cond_destroy _ => Sym_cond_destroy
  | call_cond_signal _ => Sym_cond_signal
  | call_cond_broadcast _ => Sym_cond_broadcast
  | call_cond_wait _ _ => Sym_cond_wait
  | call_cond_timedwait _ _ _ => Sym_cond_timedwait
  | call_rwlock_init _ _ => Sym_rwlock_init
  | call_rwlock_destroy _ => Sym_rwlock_destroy
  | call_rwlock_rdlock _ => Sym_rwlock_rdlock
  | call_rwlock_tryrdlock _ => Sym_rwlock_tryrdlock
  | call_rwlock_timedrdlock _ _ => Sym_rwlock_timedrdlock
  | call_rwlock_wrlock _ => Sym_rwlock_wrlock
  | call_rwlock_trywrlock _ => Sym_rwlock_trywrlock
  | call_rwlock_timedwrlock _ _ => Sym_rwlock_timedwrlock
  | call_rwlock_unlock _ => Sym_rwlock_unlock
  | call_create _ _ _ _ => Sym_create
  end.

Definition args_of (c : Call) : list Z :=
  match c with
  | call_mutex_init m a => [m; a]
  | call_mutex_destroy m | call_mutex_lock m | call_mutex_trylock m
  | call_mutex_unlock m => [m]
  | call_mutex_timedlock m t => [m; t]
  | call_cond_init c a => [c; a]
  | call_cond_destroy c | call_cond_signal c | call_cond_broadcast c => [c]
  | call_cond_wait c m => [c; m]
  | call_cond_timedwait c m t => [c; m; t]
  | call_rwlock_init r a => [r; a]
  | call_rwlock_destroy r | call_rwlock_rdlock r | call_rwlock_tryrdlock r
  | call_rwlock_wrlock r | call_rwlock_trywrlock r | call_rwlock_unlock r => [r]
  | call_rwlock_timedrdlock r t | call_rwlock_timedwrlock r t => [r; t]
  | call_create th a f x => [th; a; f; x]
  end.

(** The primary object pointer of a call (the mutex, rwlock, cond, or
    [pthread_t] handle), which its wrapper logs as [ptr1]. *)
Definition primary_ptr (c : Call) : Z :=
  match c with
  | call_mutex_init m _ | call_mutex_destroy m | call_mutex_lock m
  | call_mutex_trylock m | call_mutex_timedlock m _ | call_mutex_unlock m => m
  | call_cond_init c _ | call_cond_destroy c | call_cond_signal c
  | call_cond_broadcast c | call_cond_wait c _ | call_cond_timedwait c _ _ => c
  | call_rwlock_init r _ | call_rwlock_destroy r | call_rwlock_rdlock r
  | call_rwlock_tryrdlock r | call_rwlock_timedrdlock r _ | call_rwlock_wrlock r
  | call_rwlock_trywrlock r | call_rwlock_timedwrlock r _
  | call_rwlock_unlock r => r
  | call_create th _ _ _ => th
  end.

(** The secondary pointer a call's wrapper logs as [ptr2]: the mutex of a
    condition wait, 0 for every other call. *)
Definition secondary_ptr (c : Call) : Z :=
  match c with
  | call_cond_wait _ m | call_cond_timedwait _ m _ => m
  | _ => 0
  end.

(** Whether the wrapper of a call logs a pre-event before the real call. *)
Definition is_blocking (c : Call) : bool :=
  match c with
  | call_mutex_lock _ | call_mutex_trylock _ | call_mutex_timedlock _ _
  | call_cond_wait _ _ | call_cond_timedwait _ _ _
  | call_rwlock_rdlock _ | call_rwlock_tryrdlock _ | call_rwlock_timedrdlock _ _
  | call_rwlock_wrlock _ | call_rwlock_trywrlock _
  | call_rwlock_timedwrlock _ _ => true
  | _ => false
  end.

(** The event kind named after each entry point, as the spec's list of
    kinds pairs them ([pthread_mutex_unlock] with [MutexUnlock],
    [pthread_rwlock_rdlock] with [RWLockRead], [pthread_create] with
    [ThreadCreate], ...): for a blocking call, the kind of its pre-event. *)
Definition event_of_call (c : Call) : EventType :=
  match c with
  | call_mutex_init _ _ => MutexInit
  | call_mutex_destroy _ => MutexDestroy
  | call_mutex_lock _ => MutexLock
  | call_mutex_trylock _ => MutexTryLock
  | call_mutex_timedlock _ _ => MutexTimedLock
  | call_mutex_unlock _ => MutexUnlock
  | call_cond_init _ _ => CondInit
  | call_cond_destroy _ => CondDestroy
  | call_cond_signal _ => CondSignal
  | call_cond_broadcast _ => CondBroadcast
  | call_cond_wait _ _ => CondWait
  | call_cond_timedwait _ _ _ => CondTimedWait
  | call_rwlock_init _ _ => RWLockInit
  | call_rwlock_destroy _ => RWLockDestroy
  | call_rwlock_rdlock _ => RWLockRead
  | call_rwlock_tryrdlock _ => RWLockTryRead
  | call_rwlock_timedrdlock _ _ => RWLockTimedRead
  | call_rwlock_wrlock _ => RWLockWrite
  | call_rwlock_trywrlock _ => RWLockTryWrite
  | call_rwlock_timedwrlock _ _ => RWLockTimedWrite
  | call_rwlock_unlock _ => RWLockUnlock
  | call_create _ _ _ _ => ThreadCreate
  end.

(** ** Appends to the trace file from concurrent threads

    [EventLogger::log] run by several threads, interleaved at the points
    where another thread can act: acquiring [write_mutex_] (the
    [std::lock_guard]), reading [steady_clock::now()], writing and flushing
    the serialized record, and releasing the mutex when [log] returns.  The
    stack capture and the [gettid] call touch no shared state.  The clock is
    a single monotonic counter ([steady_clock]) that may advance at any
    time; its nanosecond count is a non-negative [int64_t]. *)
Module LogOrder.

(** The arguments of one [log] call. *)
Record LogArgs := mkArgs {
  a_type : Z; a_ptr1 : Z; a_ptr2 : Z; a_result : Z; a_duration : Z;
  a_frames : list Z
}.

(** Where a thread is inside [EventLogger::log]. *)
Inductive Pc :=
| Idle
| Entered (a : LogArgs)
| Locked (a : LogArgs)
| Stamped (a : LogArgs) (ts : Z)
| Written (a : LogArgs).

Record World := mkWorld {
  owner : option nat;       (* holder of write_mutex_ *)
  now : Z;                  (* steady_clock *)
  opened : bool;            (* log_ was opened *)
  pc : nat -> Pc;           (* each thread's position *)
  file : list Event         (* records in file order *)
}.

Definition set_pc (w : World) (t : nat) (p : Pc) : nat -> Pc :=
  fun t' => if Nat.eqb t' t then p else pc w t'.

Definition record_of (t : nat) (a : LogArgs) (ts : Z) : Event :=
  mkEvent ts (u32 (Z.of_nat t)) (a_type a) (a_ptr1 a) (a_ptr2 a) (a_result a)
    (a_duration a) (a_frames a).

Inductive step : World -> World -> Prop :=
| step_tick w t' :
    now w <= t' < 2 ^ 63 ->
    step w (mkWorld (owner w) t' (opened w) (pc w) (file w))
| step_enter w t a :
    pc w t = Idle ->
    step w (mkWorld (owner w) (now w) (opened w) (set_pc w t (Entered a)) (file w))
| step_lock w t a :
    pc w t = Entered a -> owner w = None ->
    step w (mkWorld (Some t) (now w) (opened w) (set_pc w t (Locked a)) (file w))
| step_clock w t a :
    pc w t = Locked a ->
    step w (mkWorld (owner w) (now w) (opened w)
              (set_pc w t (Stamped a (u64 (now w)))) (file w))
| step_write w t a ts :
    pc w t = Stamped a ts ->
    step w (mkWorld (owner w) (now w) (opened w) (set_pc w t (Written a))
              (if opened w then file w ++ [record_of t a ts] else file w))
| step_unlock w t a :
    pc w t = Written a ->
    step w (mkWorld None (now w) (opened w) (set_pc w t Idle) (file w)).

(** States reachable from the freshly opened, empty trace file. *)
Inductive reachable : World -> Prop :=
| reach_init c0 ok :
    0 <= c0 < 2 ^ 63 -> reachable (mkWorld None c0 ok (fun _ => Idle) [])
| reach_step w w' : reachable w -> step w w' -> reachable w'.

(** The invariant of [reachable] states: the clock is a valid
    [steady_clock] count, the file is in timestamp order and no later than
    the clock, only the holder of [write_mutex_] is past the lock, and a
    stamp taken under the mutex is no earlier than any record in the file. *)
Definition inv (w : World) : Prop :=
  0 <= now w < 2 ^ 63 /\
  Sorted Z.le (map timestamp (file w)) /\
  Forall (fun e => timestamp e <= now w) (file w) /\
  (forall t a, pc w t = Locked a -> owner w = Some t) /\
  (forall t a ts, pc w t = Stamped a ts ->
     owner w = Some t /\ ts <= now w /\ Forall (fun e => timestamp e <= ts) (file w)) /\
  (forall t a, pc w t = Written a -> owner w = Some t).

End LogOrder.

(** ** Sample inputs *)

(** A record with every field in use, including a three-frame stack. *)
Definition sample_event : Event :=
  mkEvent 123456789 4242 (EventType_to_u8 CondWaitDone) (2 ^ 47 + 17) 99 (-1)
    1000000 [1; 2 ^ 63; 777].

(** A [MutexLock] record as the shim writes it for a mutex at address 64. *)
Definition lock_event : Event := mkEvent 5 7 (EventType_to_u8 MutexLock) 64 0 0 0 [].

(** A real implementation that returns 22. *)
Definition impl0 : Impl := fun _ _ => 22.

(** Every symbol resolved. *)
Definition tbl0 : Table := fun _ => Some impl0.

(** A platform whose clock reads 100 ns at the thread's first interaction
    and then advances by a growing step, and whose captured stack changes
    from one [backtrace] to the next. *)
Definition steady0 (n : nat) : Z := 100 + 10 * Z.of_nat n + Z.of_nat n * Z.of_nat n.

Definition stacks0 (n : nat) : list Z := [11; 12 + Z.of_nat (n mod 8)].

(** A thread outside any wrapper, the logger open. *)
Definition s0 : Shim := mkShim false true true 0 steady0 9 stacks0 [].

(** The same thread while it is already inside a wrapper. *)
Definition s_hooked : Shim := set_in_hook true s0.

(** A thread before [init_skeleton_key] has initialized the logger. *)
Definition s_unopened : Shim := mkShim false false false 0 steady0 9 stacks0 [].




Example encode_300 : encodeVarInt 300 = [172; 2].
Proof. reflexivity. Qed.

Example decode_300 : decodeVarInt [172; 2] = 300.
Proof. reflexivity. Qed.

Example encode_max : length (encodeVarInt (2 ^ 64 - 1)) = 10%nat.
Proof. reflexivity. Qed.

(** * Proofs *)

(** ** Byte-level facts *)

Lemma byte_facts_check :
  forallb (fun n => let x := Z.of_nat n in
    (Z.land (Z.lor x 128) 127 =? x) && (Z.land (Z.lor x 128) 128 =? 128) &&
    (Z.land x 128 =? 0) && (Z.land x 127 =? x) &&
    (Z.lor x 128 =? x + 128))
    (seq 0 128) = true.
Proof. vm_compute. reflexivity. Qed.

Lemma byte_facts (x : Z) : 0 <= x < 128 ->
  Z.land (Z.lor x 128) 127 = x /\ Z.land (Z.lor x 128) 128 = 128 /\
  Z.land x 128 = 0 /\ Z.land x 127 = x /\ Z.lor x 128 = x + 128.
Proof.
  intros Hx. pose proof byte_facts_check as H.
  rewrite forallb_forall in H. specialize (H (Z.to_nat x)).
  rewrite Z2Nat.id in H by lia.
  assert (Hin : In (Z.to_nat x) (seq 0 128)) by (apply in_seq; lia).
  specialize (H Hin).
  repeat rewrite andb_true_iff in H. rewrite !Z.eqb_eq in H.
  intuition.
Qed.

Lemma land_127 (v : Z) : Z.land v 127 = v mod 128.
Proof. change 127 with (Z.ones 7). rewrite Z.land_ones by lia. reflexivity. Qed.

Lemma shiftr_7 (v : Z) : Z.shiftr v 7 = v / 128.
Proof. rewrite Z.shiftr_div_pow2 by lia. reflexivity. Qed.

(** Or-ing a value into the bits above [s] is addition. *)
Lemma lor_shiftl_disjoint (a b s : Z) :
  0 <= s -> 0 <= a < 2 ^ s -> Z.lor a (Z.shiftl b s) = a + b * 2 ^ s.
Proof.
  intros Hs Ha.
  assert (Hd : Z.land a (Z.shiftl b s) = 0).
  { apply Z.bits_inj'. intros n Hn. rewrite Z.land_spec, Z.bits_0.
    destruct (Z.lt_ge_cases n s) as [Hlt | Hge].
    - rewrite Z.shiftl_spec_low by lia. apply andb_false_r.
    - rewrite <- (Z.mod_small a (2 ^ s)) by lia.
      rewrite Z.mod_pow2_bits_high by lia. reflexivity. }
  rewrite <- Z.lxor_lor by exact Hd.
  rewrite <- Z.add_nocarry_lxor by exact Hd.
  rewrite Z.shiftl_mul_pow2 by lia. reflexivity.
Qed.

Lemma pow_7_succ (n : nat) : 2 ^ (7 * Z.of_nat (S n)) = 128 * 2 ^ (7 * Z.of_nat n).
Proof.
  rewrite Nat2Z.inj_succ, Z.mul_succ_r, Z.pow_add_r by lia. lia.
Qed.

(** ** Varint encoding *)

Lemma encode_loop_S (n : nat) (v : Z) :
  encode_loop (S n) v =
  if v / 128 =? 0 then [v mod 128] else (v mod 128 + 128) :: encode_loop n (v / 128).
Proof.
  simpl. rewrite land_127, shiftr_7.
  destruct (v / 128 =? 0); [reflexivity|].
  assert (Hb : 0 <= v mod 128 < 128) by (apply Z.mod_pos_bound; lia).
  destruct (byte_facts _ Hb) as (_ & _ & _ & _ & E). rewrite E. reflexivity.
Qed.

Lemma read_loop_cons (b : Z) (rest : list Z) (acc s : Z) :
  read_loop (b :: rest) acc s =
  let result' := u64 (Z.lor acc (Z.shiftl (Z.land b 127) s)) in
  if Z.land b 128 =? 0 then (result', 1%nat)
  else let '(r, n) := read_loop rest result' (s + 7) in (r, S n).
Proof. reflexivity. Qed.

(** Reading back an encoding produced with enough fuel. *)
Lemma read_encode_loop (n : nat) : forall v acc s rest,
  (0 < n)%nat -> 0 <= v < 2 ^ (7 * Z.of_nat n) -> 0 <= s -> 0 <= acc < 2 ^ s ->
  read_loop (encode_loop n v ++ rest) acc s =
  (u64 (acc + v * 2 ^ s), length (encode_loop n v)).
Proof.
  induction n as [|n IH]; intros v acc s rest Hn Hv Hs Hacc; [lia|].
  rewrite pow_7_succ in Hv.
  assert (Hb : 0 <= v mod 128 < 128) by (apply Z.mod_pos_bound; lia).
  assert (Hq : 0 <= v / 128 < 2 ^ (7 * Z.of_nat n)).
  { split; [apply Z.div_pos; lia|]. apply Z.div_lt_upper_bound; lia. }
  assert (Hsplit : v = v mod 128 + 128 * (v / 128)).
  { pose proof (Z.div_mod v 128). lia. }
  assert (Hp : 2 ^ (s + 7) = 2 ^ s * 128) by (rewrite Z.pow_add_r; lia).
  rewrite encode_loop_S.
  destruct (Z.eqb_spec (v / 128) 0) as [H0 | H0].
  - simpl. destruct (byte_facts (v mod 128) Hb) as (_ & _ & E128 & E127 & _).
    rewrite E127, E128. simpl.
    rewrite lor_shiftl_disjoint by lia.
    f_equal. f_equal. rewrite H0 in Hsplit. rewrite Hsplit at 2. ring.
  - destruct n as [|n']; [simpl in Hq; lia|].
    destruct (byte_facts (v mod 128) Hb) as (L127 & L128 & _ & _ & E).
    rewrite <- app_comm_cons, read_loop_cons, <- E, L127, L128. cbv zeta.
    change (128 =? 0) with false. cbv iota.
    rewrite lor_shiftl_disjoint by lia.
    assert (Hacc' : 0 <= u64 (acc + v mod 128 * 2 ^ s) < 2 ^ (s + 7)).
    { assert (Hm : 0 <= v mod 128 * 2 ^ s <= 127 * 2 ^ s).
      { split; [apply Z.mul_nonneg_nonneg; lia|].
        apply Z.mul_le_mono_nonneg_r; lia. }
      unfold u64. split; [apply Z.mod_pos_bound; lia|].
      eapply Z.le_lt_trans; [apply Z.mod_le; lia|]. lia. }
    rewrite IH by (lia || auto).
    f_equal. unfold u64. rewrite Zplus_mod_idemp_l. f_equal.
    rewrite Hp.
    transitivity (acc + (v mod 128 + 128 * (v / 128)) * 2 ^ s); [ring|].
    rewrite <- Hsplit. reflexivity.
Qed.

Lemma encode_loop_nonempty (n : nat) (v : Z) :
  (0 < n)%nat -> (0 < length (encode_loop n v))%nat.
Proof.
  intros Hn. destruct n; [lia|]. simpl. destruct (Z.shiftr v 7 =? 0); simpl; lia.
Qed.

(** Each iteration removes seven bits: a value below [2^(7k)] takes at most
    [k] bytes. *)
Lemma encode_loop_length (n : nat) : forall v k,
  (1 <= k)%nat -> 0 <= v < 2 ^ (7 * Z.of_nat k) ->
  (length (encode_loop n v) <= k)%nat.
Proof.
  induction n as [|n IH]; intros v k Hk Hv; [simpl; lia|].
  rewrite encode_loop_S.
  destruct (Z.eqb_spec (v / 128) 0) as [H0 | H0]; simpl; [lia|].
  destruct k as [|k']; [lia|].
  rewrite pow_7_succ in Hv.
  assert (Hq : 0 <= v / 128 < 2 ^ (7 * Z.of_nat k')).
  { split; [apply Z.div_pos; lia|]. apply Z.div_lt_upper_bound; lia. }
  destruct k' as [|k'']; [simpl in Hq; lia|].
  specialize (IH (v / 128) (S k'') ltac:(lia) Hq). lia.
Qed.

(** The fuel [encodeVarInt] gives is enough for the value. *)
Lemma encodeVarInt_fuel (v : Z) :
  0 <= v -> v < 2 ^ (7 * Z.of_nat (S (Z.to_nat (Z.log2 v)))).
Proof.
  intros Hv. rewrite Nat2Z.inj_succ, Z2Nat.id by apply Z.log2_nonneg.
  destruct (Z.eq_dec v 0) as [->|Hne]; [cbn; lia|].
  destruct (Z.log2_spec v ltac:(lia)) as [_ Hlt].
  eapply Z.lt_le_trans; [exact Hlt|].
  apply Z.pow_le_mono_r; [lia|]. pose proof (Z.log2_nonneg v). lia.
Qed.

Lemma read_encodeVarInt (v : Z) (rest : list Z) : is_u64 v ->
  read_loop (encodeVarInt v ++ rest) 0 0 = (v, length (encodeVarInt v)).
Proof.
  intros Hv. unfold is_u64 in Hv. unfold encodeVarInt.
  rewrite read_encode_loop; [|lia| pose proof (encodeVarInt_fuel v); lia
                           |lia| cbn; lia].
  unfold u64. rewrite Z.mod_small by lia. f_equal. lia.
Qed.

Lemma encodeVarInt_length_le (v : Z) (k : nat) :
  (1 <= k)%nat -> 0 <= v < 2 ^ (7 * Z.of_nat k) -> (length (encodeVarInt v) <= k)%nat.
Proof. intros. apply encode_loop_length; assumption. Qed.

Lemma encodeVarInt_nonempty (v : Z) : (0 < length (encodeVarInt v))%nat.
Proof. apply encode_loop_nonempty. lia. Qed.

Lemma u64_range (x : Z) : is_u64 (u64 x).
Proof. unfold is_u64, u64. apply Z.mod_pos_bound. lia. Qed.

Lemma read_loop_consumed (l : list Z) : forall acc s,
  (snd (read_loop l acc s) <= length l)%nat.
Proof.
  induction l as [|b l IH]; intros acc s; [simpl; lia|].
  rewrite read_loop_cons. cbv zeta.
  destruct (Z.land b 128 =? 0); [simpl; lia|].
  specialize (IH (u64 (Z.lor acc (Z.shiftl (Z.land b 127) s))) (s + 7)).
  destruct (read_loop l _ _) as [r n]. simpl in *. lia.
Qed.

(** Reading a proper prefix of an encoding consumes all of it and yields the
    low bits carried by the bytes present. *)
Lemma read_cut_loop (n : nat) : forall v acc s k,
  (0 < n)%nat -> 0 <= v < 2 ^ (7 * Z.of_nat n) -> 0 <= s ->
  0 <= acc < 2 ^ s -> acc < 2 ^ 64 ->
  (k < length (encode_loop n v))%nat ->
  read_loop (firstn k (encode_loop n v)) acc s =
  (u64 (acc + (v mod 2 ^ (7 * Z.of_nat k)) * 2 ^ s), k).
Proof.
  induction n as [|n IH]; intros v acc s k Hn Hv Hs Hacc Hacc64 Hk; [lia|].
  destruct k as [|k'].
  - cbn [firstn read_loop]. change (2 ^ (7 * Z.of_nat 0)) with 1.
    rewrite Z.mod_1_r, Z.mul_0_l, Z.add_0_r. unfold u64.
    rewrite Z.mod_small by lia. reflexivity.
  - rewrite pow_7_succ in Hv.
    assert (Hb : 0 <= v mod 128 < 128) by (apply Z.mod_pos_bound; lia).
    assert (Hq : 0 <= v / 128 < 2 ^ (7 * Z.of_nat n)).
    { split; [apply Z.div_pos; lia|]. apply Z.div_lt_upper_bound; lia. }
    rewrite encode_loop_S in *.
    destruct (Z.eqb_spec (v / 128) 0) as [H0 | H0]; [simpl in Hk; lia|].
    destruct n as [|n']; [simpl in Hq; lia|].
    destruct (byte_facts (v mod 128) Hb) as (L127 & L128 & _ & _ & E).
    cbn [firstn]. rewrite read_loop_cons, <- E, L127, L128. cbv zeta.
    change (128 =? 0) with false. cbv iota.
    rewrite lor_shiftl_disjoint by lia.
    assert (Hp : 2 ^ (s + 7) = 2 ^ s * 128) by (rewrite Z.pow_add_r; lia).
    assert (Hacc' : 0 <= u64 (acc + v mod 128 * 2 ^ s) < 2 ^ (s + 7)).
    { assert (Hm : 0 <= v mod 128 * 2 ^ s <= 127 * 2 ^ s).
      { split; [apply Z.mul_nonneg_nonneg; lia|].
        apply Z.mul_le_mono_nonneg_r; lia. }
      unfold u64. split; [apply Z.mod_pos_bound; lia|].
      eapply Z.le_lt_trans; [apply Z.mod_le; lia|]. lia. }
    pose proof (u64_range (acc + v mod 128 * 2 ^ s)) as H64. unfold is_u64 in H64.
    cbn [length] in Hk.
    rewrite IH by (lia || auto).
    f_equal. unfold u64. rewrite Zplus_mod_idemp_l. f_equal.
    rewrite pow_7_succ, Z.rem_mul_r by lia.
    rewrite Z.pow_add_r by lia. ring.
Qed.

(** A varint read at a position where an encoding starts. *)
Lemma readVarInt_at (buf : list Z) (pos : nat) (v : Z) (rest : list Z) :
  is_u64 v -> skipn pos buf = encodeVarInt v ++ rest ->
  readVarInt (mkReader buf pos) = (v, mkReader buf (pos + length (encodeVarInt v))).
Proof.
  intros Hv Hs. unfold readVarInt, remaining. simpl. rewrite Hs.
  rewrite read_encodeVarInt by exact Hv. reflexivity.
Qed.

(** ** Signed results *)

Lemma i32_u64 (r : Z) : is_i32 r -> i32 (u64 r) = r.
Proof.
  intros Hr. unfold is_i32 in Hr. unfold i32, u64.
  rewrite Z.mod_mod_divide by (exists (2 ^ 32); reflexivity).
  destruct (Z.ltb_spec r 0) as [Hneg | Hpos].
  - rewrite <- (Z.mod_add r 1 (2 ^ 32)) by lia.
    rewrite Z.mod_small by lia.
    destruct (Z.ltb_spec (r + 1 * 2 ^ 32) (2 ^ 31)); lia.
  - rewrite Z.mod_small by lia.
    destruct (Z.ltb_spec r (2 ^ 31)); lia.
Qed.


(** ** C2: varint round trip *)

(** C2: for every unsigned 64-bit [v], decoding [encodeVarInt v] with
    [readVarInt] yields [v]; the encoding is at most ten bytes long; and zero
    is encoded as the single byte 0. *)
Theorem varint_roundtrip (v : Z) : is_u64 v ->
  decodeVarInt (encodeVarInt v) = v /\
  (length (encodeVarInt v) <= 10)%nat /\
  encodeVarInt 0 = [0].
Proof.
  intros Hv. split; [|split].
  - unfold decodeVarInt.
    rewrite (readVarInt_at (encodeVarInt v) 0 v []) by
      (exact Hv || (simpl; rewrite app_nil_r; reflexivity)).
    reflexivity.
  - apply encodeVarInt_length_le; [lia|]. unfold is_u64 in Hv.
    split; [lia|]. eapply Z.lt_le_trans; [apply Hv|].
    apply Z.pow_le_mono_r; lia.
  - reflexivity.
Qed.

Lemma varint_roundtrip_witness :
  is_u64 (2 ^ 64 - 1) /\ decodeVarInt (encodeVarInt (2 ^ 64 - 1)) = 2 ^ 64 - 1.
Proof.
  assert (H : is_u64 (2 ^ 64 - 1)) by (unfold is_u64; lia).
  split; [exact H|].
  exact (proj1 (varint_roundtrip (2 ^ 64 - 1) H)).
Defined.

(** ** C5: signed results *)

(** C5: [EventLogger::log] stores a signed 32-bit [result] as
    [static_cast<uint64_t>(result)], i.e. sign-extended to 64 bits in two's
    complement; the reader's [int32_t result = readVarInt()] recovers [r]
    exactly; and the encoding of -1 takes ten bytes. *)
Theorem signed_result_roundtrip (r : Z) : is_i32 r ->
  u64 r = (if r <? 0 then r + 2 ^ 64 else r) /\
  i32 (decodeVarInt (encodeVarInt (u64 r))) = r /\
  length (encodeVarInt (u64 (-1))) = 10%nat.
Proof.
  intros Hr. unfold is_i32 in Hr. split; [|split].
  - unfold u64. destruct (Z.ltb_spec r 0).
    + rewrite <- (Z.mod_add r 1 (2 ^ 64)) by lia. apply Z.mod_small. lia.
    + apply Z.mod_small. lia.
  - destruct (varint_roundtrip (u64 r) (u64_range r)) as [-> _].
    apply i32_u64. exact Hr.
  - reflexivity.
Qed.

Lemma signed_result_roundtrip_witness :
  is_i32 (-1) /\ i32 (decodeVarInt (encodeVarInt (u64 (-1)))) = -1.
Proof.
  assert (H : is_i32 (-1)) by (unfold is_i32; lia).
  split; [exact H|].
  exact (proj1 (proj2 (signed_result_roundtrip (-1) H))).
Defined.

(** ** C9: [readVarInt] at and past the end of the buffer *)

(** C9: [readVarInt] is a total function of the reader: it never moves the
    position before where it was nor past the end of the buffer; at or past
    the end it returns 0 and leaves the reader unchanged, with no error; and
    a varint cut off by the end of the buffer after [k] of its bytes decodes
    to the low [7k] bits of the value and leaves the reader at the end,
    exactly as the complete encoding of that smaller value does, so the two
    cannot be told apart. *)
Theorem readVarInt_total_silent :
  (forall rd, (length (buffer_ rd) <= pos_ rd)%nat -> readVarInt rd = (0, rd)) /\
  (forall rd, buffer_ (snd (readVarInt rd)) = buffer_ rd /\
     (pos_ rd <= pos_ (snd (readVarInt rd)) <= Nat.max (pos_ rd) (length (buffer_ rd)))%nat) /\
  (forall v k, is_u64 v -> (0 < k < length (encodeVarInt v))%nat ->
     let cut := firstn k (encodeVarInt v) in
     let small := v mod 2 ^ (7 * Z.of_nat k) in
     readVarInt (mkReader cut 0) = (small, mkReader cut k) /\
     eof (mkReader cut k) = true /\
     readVarInt (mkReader (encodeVarInt small) 0) =
       (small, mkReader (encodeVarInt small) (length (encodeVarInt small))) /\
     eof (mkReader (encodeVarInt small) (length (encodeVarInt small))) = true).
Proof.
  split; [|split].
  - intros [buf pos] H. simpl in H. unfold readVarInt, remaining. simpl.
    rewrite skipn_all2 by exact H. simpl. rewrite Nat.add_0_r. reflexivity.
  - intros [buf pos]. unfold readVarInt, remaining. simpl.
    pose proof (read_loop_consumed (skipn pos buf) 0 0) as Hc.
    rewrite length_skipn in Hc.
    destruct (read_loop (skipn pos buf) 0 0) as [x n]. simpl in *.
    split; [reflexivity|].
    destruct (Nat.le_ge_cases pos (length buf));
      [rewrite Nat.max_r by lia | rewrite Nat.max_l by lia]; lia.
  - intros v k Hv Hk cut small.
    assert (Hsmall : is_u64 small).
    { unfold small, is_u64 in *. split; [apply Z.mod_pos_bound; lia|].
      eapply Z.le_lt_trans; [apply Z.mod_le; lia|]. lia. }
    assert (Hlen : length cut = k).
    { unfold cut. rewrite length_firstn. lia. }
    split; [|split; [|split]].
    + unfold readVarInt, remaining. simpl. unfold cut, encodeVarInt.
      pose proof (encodeVarInt_fuel v ltac:(unfold is_u64 in Hv; lia)) as Hf.
      rewrite read_cut_loop; [| lia | unfold is_u64 in Hv; lia
                             | lia | cbn; lia | cbn; lia | exact (proj2 Hk)].
      f_equal. rewrite Z.add_0_l, Z.mul_1_r. unfold u64.
      apply Z.mod_small. exact Hsmall.
    + unfold eof. simpl. rewrite Hlen. apply Nat.leb_refl.
    + rewrite (readVarInt_at (encodeVarInt small) 0 small []) by
        (exact Hsmall || (simpl; rewrite app_nil_r; reflexivity)).
      reflexivity.
    + unfold eof. simpl. apply Nat.leb_refl.
Qed.

Lemma readVarInt_total_silent_witness :
  readVarInt (mkReader [5] 3) = (0, mkReader [5] 3) /\
  readVarInt (mkReader [172] 0) = (44, mkReader [172] 1) /\
  readVarInt (mkReader [44] 0) = (44, mkReader [44] 1).
Proof.
  destruct readVarInt_total_silent as [H1 [_ H3]].
  assert (Hv : is_u64 300) by (unfold is_u64; lia).
  assert (Hk : (0 < 1 < length (encodeVarInt 300))%nat) by (vm_compute; lia).
  destruct (H3 300 1%nat Hv Hk) as [Ha [_ [Hb _]]].
  split; [apply H1; simpl; lia|]. split; [exact Ha | exact Hb].
Defined.

(** ** Record serialization *)

Lemma w_writeStack_loop_buffer (fs : list Z) : forall w,
  buffer (w_writeStack_loop w fs) = buffer w ++ concat (map encodeVarInt fs).
Proof.
  induction fs as [|f fs IH]; intros w; simpl.
  - rewrite app_nil_r. reflexivity.
  - rewrite IH. unfold w_encodeVarInt. simpl. rewrite app_assoc. reflexivity.
Qed.

(** The bytes [log] puts in its scratch buffer, field by field. *)
Lemma log_serialize_layout (w : VarIntWriter) (ts t ty p1 p2 res dur : Z)
    (frames : list Z) :
  buffer (log_serialize w ts t ty p1 p2 res dur frames) =
  encodeVarInt ts ++ encodeVarInt t ++ [ty] ++ encodeVarInt p1 ++
  encodeVarInt p2 ++ encodeVarInt (u64 res) ++ encodeVarInt dur ++
  encodeVarInt (Z.of_nat (length frames)) ++ concat (map encodeVarInt frames).
Proof.
  unfold log_serialize, w_writeStack.
  rewrite w_writeStack_loop_buffer. simpl. rewrite <- !app_assoc. reflexivity.
Qed.

Lemma serialize_layout (e : Event) :
  serialize e =
  encodeVarInt (timestamp e) ++ encodeVarInt (tid e) ++ [type e] ++
  encodeVarInt (ptr1 e) ++ encodeVarInt (ptr2 e) ++
  encodeVarInt (u64 (result e)) ++ encodeVarInt (duration_ns e) ++
  encodeVarInt (Z.of_nat (length (stack e))) ++
  concat (map encodeVarInt (stack e)).
Proof. apply log_serialize_layout. Qed.

(** ** C3: wire layout of one record *)

(** C3 (as amended): the scratch buffer that [EventLogger::log] writes for a
    record holds, in this order, varint(timestamp), varint(tid), one raw byte
    for the kind, varint(ptr1), varint(ptr2), varint of the result
    sign-extended to 64 bits, varint(duration_ns), and the stack as a varint
    depth followed by one varint per frame: six scalar varint fields, with
    the raw kind byte third. *)
Theorem record_wire_layout (w : VarIntWriter) (ts t : Z) (ty : EventType)
    (p1 p2 res dur : Z) (frames : list Z) :
  buffer (log_serialize w ts t (EventType_to_u8 ty) p1 p2 res dur frames) =
  encodeVarInt ts ++ encodeVarInt t ++ [EventType_to_u8 ty] ++
  encodeVarInt p1 ++ encodeVarInt p2 ++ encodeVarInt (u64 res) ++
  encodeVarInt dur ++
  (encodeVarInt (Z.of_nat (length frames)) ++ concat (map encodeVarInt frames)).
Proof. apply log_serialize_layout. Qed.

(** C3 as stated (seven varint fields, then the raw kind byte, then the
    stack) fails: this record serializes to eight bytes, while seven varints,
    a byte and a stack prefix take at least nine. *)
Lemma record_wire_layout_counterexample :
  ~ (exists v1 v2 v3 v4 v5 v6 v7 k,
       serialize (mkEvent 5 7 (EventType_to_u8 MutexLock) 64 0 0 0 []) =
       encodeVarInt v1 ++ encodeVarInt v2 ++ encodeVarInt v3 ++
       encodeVarInt v4 ++ encodeVarInt v5 ++ encodeVarInt v6 ++
       encodeVarInt v7 ++ [k] ++ encodeVarInt 0 ++ concat (map encodeVarInt [])).
Proof.
  intros (v1 & v2 & v3 & v4 & v5 & v6 & v7 & k & H).
  apply (f_equal (@length Z)) in H.
  rewrite !length_app in H.
  pose proof (encodeVarInt_nonempty v1). pose proof (encodeVarInt_nonempty v2).
  pose proof (encodeVarInt_nonempty v3). pose proof (encodeVarInt_nonempty v4).
  pose proof (encodeVarInt_nonempty v5). pose proof (encodeVarInt_nonempty v6).
  pose proof (encodeVarInt_nonempty v7).
  assert (Hl : length (serialize (mkEvent 5 7 (EventType_to_u8 MutexLock) 64 0 0 0 []))
                = 8%nat) by reflexivity.
  assert (Hz : length (encodeVarInt 0) = 1%nat) by reflexivity.
  rewrite Hl, Hz in H. cbn [length concat map] in H. lia.
Qed.

(** ** Reading records back *)

Lemma skipn_after (buf l1 l2 : list Z) (pos : nat) :
  skipn pos buf = l1 ++ l2 -> skipn (pos + length l1) buf = l2.
Proof.
  intros H. rewrite Nat.add_comm, <- skipn_skipn, H, skipn_app.
  rewrite skipn_all, Nat.sub_diag. reflexivity.
Qed.

Lemma readEventType_at (buf : list Z) (pos : nat) (k : Z) (rest : list Z) :
  skipn pos buf = k :: rest ->
  readEventType (mkReader buf pos) = Some (k, mkReader buf (S pos)).
Proof.
  intros H. unfold readEventType. simpl.
  assert (E : nth_error buf pos = Some k).
  { rewrite <- (Nat.add_0_r pos), <- nth_error_skipn, H. reflexivity. }
  rewrite E. reflexivity.
Qed.

Lemma skipn_cons_after (buf : list Z) (pos : nat) (k : Z) (rest : list Z) :
  skipn pos buf = k :: rest -> skipn (S pos) buf = rest.
Proof.
  intros H. apply (skipn_after buf [k] rest pos) in H.
  rewrite Nat.add_1_r in H. exact H.
Qed.

(** One varint read at a position where an encoding starts, followed by the
    rest of the computation; [H] is moved past the encoding. *)
Ltac read_var H :=
  match type of H with
  | skipn ?pos ?buf = encodeVarInt ?v ++ ?rest =>
      rewrite (readVarInt_at buf pos v rest) by (assumption || exact H);
      apply skipn_after in H; cbv beta iota
  end.

Lemma read_frames_at (fs : list Z) : forall buf pos rest,
  Forall is_u64 fs -> skipn pos buf = concat (map encodeVarInt fs) ++ rest ->
  read_frames (length fs) (mkReader buf pos) =
  (fs, mkReader buf (pos + length (concat (map encodeVarInt fs)))).
Proof.
  induction fs as [|f fs IH]; intros buf pos rest Hfs H.
  - simpl. rewrite Nat.add_0_r. reflexivity.
  - inversion Hfs as [|? ? Hf Hfs']; subst.
    cbn [length read_frames map concat] in *. unfold readPtr.
    rewrite <- app_assoc in H.
    read_var H.
    rewrite (IH buf _ rest Hfs' H).
    rewrite length_app, Nat.add_assoc. reflexivity.
Qed.

Lemma u32_of_nat_small (n : nat) : (n <= MAX_STACK_DEPTH)%nat ->
  Z.to_nat (u32 (Z.of_nat n)) = n.
Proof.
  intros Hn. unfold MAX_STACK_DEPTH in Hn. unfold u32.
  rewrite Z.mod_small by lia. apply Nat2Z.id.
Qed.

Lemma u32_small (x : Z) : is_u32 x -> u32 x = x.
Proof. intros Hx. unfold u32. apply Z.mod_small. exact Hx. Qed.

(** One iteration of the reader's loop on a serialized well-formed record
    returns that record and moves past it. *)
Lemma read_event_at (e : Event) (buf : list Z) (pos : nat) (rest : list Z) :
  well_formed e -> skipn pos buf = serialize e ++ rest ->
  read_event (mkReader buf pos) =
  Some (e, mkReader buf (pos + length (serialize e))).
Proof.
  intros Hwf H.
  destruct Hwf as (Hts & Htid & Hty & Hp1 & Hp2 & Hres & Hdur & Hdepth & Hstk).
  assert (Htid64 : is_u64 (tid e)) by (unfold is_u64, is_u32 in *; lia).
  assert (Hres64 : is_u64 (u64 (result e))) by apply u64_range.
  assert (Hd64 : is_u64 (Z.of_nat (length (stack e))))
    by (unfold is_u64, MAX_STACK_DEPTH in *; lia).
  pose proof (serialize_layout e) as L.
  rewrite L in H. rewrite <- !app_assoc in H.
  unfold read_event.
  read_var H. read_var H.
  rewrite (readEventType_at _ _ (type e) _ H).
  change ([type e] ++ ?x) with (type e :: x) in H.
  apply skipn_cons_after in H. cbv beta iota.
  unfold readPtr. read_var H. read_var H. read_var H. read_var H.
  unfold readStack. read_var H.
  rewrite u32_of_nat_small by exact Hdepth.
  rewrite (read_frames_at (stack e) _ _ rest Hstk H).
  rewrite u32_small by exact Htid. rewrite i32_u64 by exact Hres.
  f_equal. f_equal.
  - destruct e; reflexivity.
  - f_equal. rewrite L. rewrite !length_app. simpl. lia.
Qed.

Lemma serialize_nonempty (e : Event) : (0 < length (serialize e))%nat.
Proof.
  rewrite serialize_layout, length_app. pose proof (encodeVarInt_nonempty (timestamp e)). lia.
Qed.

Lemma trace_bytes_length (es : list Event) : (length es <= length (trace_bytes es))%nat.
Proof.
  induction es as [|e es IH]; [simpl; lia|].
  unfold trace_bytes in *. simpl. rewrite length_app.
  pose proof (serialize_nonempty e). lia.
Qed.

Lemma eof_skipn (buf : list Z) (pos : nat) :
  eof (mkReader buf pos) = true <-> skipn pos buf = [].
Proof.
  unfold eof. simpl. rewrite Nat.leb_le. split; intros H.
  - apply skipn_all2. exact H.
  - apply (f_equal (@length Z)) in H. rewrite length_skipn in H. simpl in H. lia.
Qed.

(** The reader's loop decodes the whole records at the front of what is
    left, then goes on from the byte after them. *)
Lemma process_events_prefix (es : list Event) : forall fuel buf pos tail,
  Forall well_formed es -> skipn pos buf = trace_bytes es ++ tail ->
  (length es < fuel)%nat ->
  process_events fuel (mkReader buf pos) =
  match process_events (fuel - length es) (mkReader buf (pos + length (trace_bytes es))) with
  | Some l => Some (es ++ l)
  | None => None
  end.
Proof.
  induction es as [|e es IH]; intros fuel buf pos tail Hwf H Hf.
  - simpl. rewrite Nat.sub_0_r, Nat.add_0_r.
    destruct (process_events fuel _); reflexivity.
  - inversion Hwf as [|? ? He Hes]; subst.
    destruct fuel as [|fuel]; [simpl in Hf; lia|].
    unfold trace_bytes in H. cbn [map concat] in H. rewrite <- app_assoc in H.
    cbn [process_events].
    assert (Hne : eof (mkReader buf pos) = false).
    { destruct (eof _) eqn:E; [|reflexivity].
      apply eof_skipn in E. rewrite E in H.
      apply (f_equal (@length Z)) in H. rewrite !length_app in H.
      pose proof (serialize_nonempty e). simpl in H. lia. }
    rewrite Hne, (read_event_at e buf pos _ He H).
    apply skipn_after in H.
    rewrite (IH fuel buf _ tail Hes H) by (simpl in Hf; lia).
    unfold trace_bytes. cbn [map concat length]. rewrite length_app, Nat.add_assoc.
    simpl (S fuel - S (length es))%nat.
    destruct (process_events _ _); reflexivity.
Qed.

Lemma reader_main_trace (es : list Event) :
  Forall well_formed es -> reader_main (trace_bytes es) = Some (es, 0).
Proof.
  intros Hwf. unfold reader_main.
  pose proof (trace_bytes_length es) as Hl.
  rewrite (process_events_prefix es _ (trace_bytes es) 0 [] Hwf)
    by (simpl; rewrite ?app_nil_r; reflexivity || lia).
  remember (S (length (trace_bytes es)) - length es)%nat as f eqn:Ef.
  destruct f as [|f]; [lia|]. cbn [process_events].
  assert (Heof : eof (mkReader (trace_bytes es) (0 + length (trace_bytes es))) = true).
  { unfold eof. simpl. apply Nat.leb_refl. }
  rewrite Heof, app_nil_r. reflexivity.
Qed.

(** ** C1: record round trip *)

(** C1: for every well-formed record [e] (every field in the range of its C++
    type, at most [MAX_STACK_DEPTH] frames), one iteration of the reader's
    loop on the bytes [EventLogger::log] writes for [e] returns exactly [e]
    and stops at the end of those bytes, and the reader's [main] on a file
    holding them prints exactly [e] and exits 0. *)
Theorem record_roundtrip (e : Event) : well_formed e ->
  read_event (mkReader (serialize e) 0) =
    Some (e, mkReader (serialize e) (length (serialize e))) /\
  reader_main (serialize e) = Some ([e], 0).
Proof.
  intros Hwf. split.
  - apply (read_event_at e (serialize e) 0 [] Hwf).
    simpl. rewrite app_nil_r. reflexivity.
  - pose proof (reader_main_trace [e] (Forall_cons e Hwf (Forall_nil _))) as H.
    unfold trace_bytes in H. simpl in H. rewrite app_nil_r in H. exact H.
Qed.

Lemma record_roundtrip_witness :
  well_formed sample_event /\ reader_main (serialize sample_event) = Some ([sample_event], 0).
Proof.
  assert (H : well_formed sample_event).
  { unfold well_formed, sample_event, is_u64, is_u32, is_i32; simpl.
    repeat split; try lia; [unfold MAX_STACK_DEPTH; lia|].
    apply Forall_forall. intros x Hx. simpl in Hx. unfold is_u64.
    intuition (subst; lia). }
  split; [exact H|]. exact (proj2 (record_roundtrip sample_event H)).
Defined.

(** ** Reading a cut-off record *)

Lemma firstn_app_ge {A} (j : nat) (l1 l2 : list A) : (length l1 <= j)%nat ->
  firstn j (l1 ++ l2) = l1 ++ firstn (j - length l1) l2.
Proof. intros H. rewrite firstn_app, firstn_all2 by exact H. reflexivity. Qed.

Lemma firstn_app_le {A} (j : nat) (l1 l2 : list A) : (j <= length l1)%nat ->
  firstn j (l1 ++ l2) = firstn j l1.
Proof.
  intros H. rewrite firstn_app.
  replace (j - length l1)%nat with 0%nat by lia. simpl. apply app_nil_r.
Qed.

Lemma readVarInt_end (buf : list Z) (pos : nat) :
  skipn pos buf = [] -> readVarInt (mkReader buf pos) = (0, mkReader buf pos).
Proof.
  intros H. unfold readVarInt, remaining. simpl. rewrite H. simpl.
  rewrite Nat.add_0_r. reflexivity.
Qed.

(** A varint read where what is left of the buffer is a prefix of an
    encoding followed by more bytes: it stops where the prefix of the rest
    starts, and yields the value when the encoding is whole. *)
Lemma readVarInt_prefix (buf : list Z) (pos : nat) (v : Z) (j : nat) (rest : list Z) :
  is_u64 v -> skipn pos buf = firstn j (encodeVarInt v ++ rest) ->
  exists x pos', readVarInt (mkReader buf pos) = (x, mkReader buf pos') /\
    skipn pos' buf = firstn (j - length (encodeVarInt v)) rest /\
    ((length (encodeVarInt v) <= j)%nat -> x = v).
Proof.
  intros Hv H.
  destruct (Nat.le_gt_cases (length (encodeVarInt v)) j) as [Hge | Hlt].
  - rewrite firstn_app_ge in H by exact Hge.
    exists v, (pos + length (encodeVarInt v))%nat.
    split; [apply (readVarInt_at buf pos v _ Hv H)|].
    split; [apply skipn_after; exact H | reflexivity].
  - rewrite firstn_app_le in H by lia.
    unfold readVarInt, remaining. simpl. rewrite H. unfold encodeVarInt in *.
    pose proof (encodeVarInt_fuel v ltac:(unfold is_u64 in Hv; lia)) as Hf.
    unfold is_u64 in Hv.
    rewrite read_cut_loop; [| lia | lia | lia | change (2 ^ 0) with 1; lia | lia | exact Hlt].
    eexists; exists (pos + j)%nat. split; [reflexivity|]. split; [|lia].
    replace (j - length _)%nat with 0%nat by lia.
    rewrite Nat.add_comm, <- skipn_skipn, H, skipn_firstn_comm, Nat.sub_diag.
    reflexivity.
Qed.

Lemma read_frames_end (n : nat) : forall buf pos,
  skipn pos buf = [] ->
  exists ps, read_frames n (mkReader buf pos) = (ps, mkReader buf pos).
Proof.
  induction n as [|n IH]; intros buf pos H; [eexists; reflexivity|].
  cbn [read_frames]. unfold readPtr. rewrite readVarInt_end by exact H.
  destruct (IH buf pos H) as [ps E]. rewrite E. eexists; reflexivity.
Qed.

Lemma read_frames_prefix (fs : list Z) : forall buf pos j,
  Forall is_u64 fs -> skipn pos buf = firstn j (concat (map encodeVarInt fs)) ->
  exists ps pos', read_frames (length fs) (mkReader buf pos) = (ps, mkReader buf pos') /\
    skipn pos' buf = [].
Proof.
  induction fs as [|f fs IH]; intros buf pos j Hfs H.
  - exists [], pos. split; [reflexivity|]. rewrite H. apply firstn_nil.
  - inversion Hfs as [|? ? Hf Hfs']; subst.
    cbn [length read_frames map concat] in *. unfold readPtr.
    destruct (readVarInt_prefix buf pos f j _ Hf H) as (x & p1 & E & H1 & _).
    rewrite E. cbv beta iota.
    destruct (IH buf p1 _ Hfs' H1) as (ps & p2 & E2 & H2).
    rewrite E2. exists (x :: ps), p2. split; [reflexivity | exact H2].
Qed.

(** One iteration of the reader's loop where what is left of the buffer is
    a prefix of a record that contains at least its kind byte: it returns a
    record with the true timestamp, tid and kind, and consumes everything. *)
Lemma read_event_partial (e : Event) (buf : list Z) (pos j : nat) :
  well_formed e -> skipn pos buf = firstn j (serialize e) ->
  (length (encodeVarInt (timestamp e)) + length (encodeVarInt (tid e)) < j)%nat ->
  exists e' pos', read_event (mkReader buf pos) = Some (e', mkReader buf pos') /\
    skipn pos' buf = [] /\
    timestamp e' = timestamp e /\ tid e' = tid e /\ type e' = type e.
Proof.
  intros Hwf H Hj.
  destruct Hwf as (Hts & Htid & Hty & Hp1 & Hp2 & Hres & Hdur & Hdepth & Hstk).
  assert (Htid64 : is_u64 (tid e)) by (unfold is_u64, is_u32 in *; lia).
  assert (Hres64 : is_u64 (u64 (result e))) by apply u64_range.
  assert (Hd64 : is_u64 (Z.of_nat (length (stack e))))
    by (unfold is_u64, MAX_STACK_DEPTH in *; lia).
  rewrite serialize_layout in H.
  unfold read_event.
  rewrite firstn_app_ge in H by lia. read_var H.
  rewrite firstn_app_ge in H by lia. read_var H.
  remember (j - length (encodeVarInt (timestamp e)) - length (encodeVarInt (tid e)))%nat
    as m eqn:Em.
  destruct m as [|m]; [lia|].
  change ([type e] ++ ?x) with (type e :: x) in H. cbn [firstn] in H.
  rewrite (readEventType_at _ _ (type e) _ H).
  apply skipn_cons_after in H. cbv beta iota.
  unfold readPtr.
  destruct (readVarInt_prefix _ _ _ _ _ Hp1 H) as (x1 & q1 & E1 & H1 & _).
  rewrite E1. cbv beta iota.
  destruct (readVarInt_prefix _ _ _ _ _ Hp2 H1) as (x2 & q2 & E2 & H2 & _).
  rewrite E2. cbv beta iota.
  destruct (readVarInt_prefix _ _ _ _ _ Hres64 H2) as (x3 & q3 & E3 & H3 & _).
  rewrite E3. cbv beta iota.
  destruct (readVarInt_prefix _ _ _ _ _ Hdur H3) as (x4 & q4 & E4 & H4 & _).
  rewrite E4. cbv beta iota.
  unfold readStack.
  destruct (readVarInt_prefix _ _ _ _ _ Hd64 H4) as (xd & qd & Ed & Hd & Xd).
  rewrite Ed. cbv beta iota.
  match type of Hd with
  | skipn _ _ = firstn ?jd _ =>
      destruct (Nat.eq_dec jd 0) as [Hz | Hnz]
  end.
  - rewrite Hz in Hd. cbn [firstn] in Hd.
    destruct (read_frames_end (Z.to_nat (u32 xd)) buf qd Hd) as [ps Eps].
    rewrite Eps. eexists; exists qd. split; [reflexivity|].
    split; [exact Hd|]. simpl. rewrite u32_small by exact Htid. auto.
  - rewrite Xd by lia. rewrite u32_of_nat_small by exact Hdepth.
    destruct (read_frames_prefix (stack e) buf qd _ Hstk Hd) as (ps & qf & Ef & Hf).
    rewrite Ef. eexists; exists qf. split; [reflexivity|].
    split; [exact Hf|]. simpl. rewrite u32_small by exact Htid. auto.
Qed.

(** ** C4: decoding a truncated trace *)

Lemma trace_bytes_app (es1 es2 : list Event) :
  trace_bytes (es1 ++ es2) = trace_bytes es1 ++ trace_bytes es2.
Proof. unfold trace_bytes. rewrite map_app, concat_app. reflexivity. Qed.

(** C4 (as amended): cut a trace of well-formed records at any byte [n],
    written as the end of the whole records [es1] plus [j] bytes of the next
    record [e].  The reader prints every record of [es1] and exits 0.  When
    the cut falls exactly between records ([j = 0]) nothing else is printed;
    when it falls inside [e] after its kind byte, the reader has no
    truncation check and prints one more record, decoded from the partial
    bytes, with [e]'s timestamp, tid and kind (missing fields read as zero or
    as the low bits of a cut varint).  Cuts before the kind byte are not
    covered: there the reader indexes past the end of its buffer. *)
Theorem truncated_trace_decoding (es1 : list Event) (e : Event) (es2 : list Event)
    (j : nat) :
  Forall well_formed (es1 ++ e :: es2) ->
  (j < length (serialize e))%nat ->
  (j = 0 \/ length (encodeVarInt (timestamp e)) + length (encodeVarInt (tid e)) < j)%nat ->
  exists extra,
    reader_main (firstn (length (trace_bytes es1) + j) (trace_bytes (es1 ++ e :: es2)))
      = Some (es1 ++ extra, 0) /\
    (j = 0%nat -> extra = []) /\
    ((0 < j)%nat -> exists e', extra = [e'] /\ timestamp e' = timestamp e /\
                               tid e' = tid e /\ type e' = type e).
Proof.
  intros Hwf Hjl Hj.
  apply Forall_app in Hwf as [Hwf1 Hwf2]. inversion Hwf2 as [|? ? He _]; subst.
  rewrite trace_bytes_app. change (trace_bytes (e :: es2)) with
    (serialize e ++ trace_bytes es2).
  rewrite firstn_app_ge by lia.
  replace (length (trace_bytes es1) + j - length (trace_bytes es1))%nat with j by lia.
  rewrite firstn_app_le by lia.
  set (buf := trace_bytes es1 ++ firstn j (serialize e)).
  assert (Hlen : length buf = (length (trace_bytes es1) + j)%nat).
  { unfold buf. rewrite length_app, length_firstn. lia. }
  pose proof (trace_bytes_length es1) as Hl1.
  assert (Hs : skipn (0 + length (trace_bytes es1)) buf = firstn j (serialize e)).
  { apply skipn_after. reflexivity. }
  unfold reader_main.
  rewrite (process_events_prefix es1 _ buf 0 (firstn j (serialize e)) Hwf1)
    by (reflexivity || lia).
  destruct Hj as [Hz | Hk].
  - subst j. exists []. split; [|split; [reflexivity | lia]].
    remember (S (length buf) - length es1)%nat as f eqn:Ef.
    destruct f as [|f]; [lia|]. cbn [process_events].
    assert (Heof : eof (mkReader buf (0 + length (trace_bytes es1))) = true)
      by (apply eof_skipn; exact Hs).
    rewrite Heof. reflexivity.
  - destruct (read_event_partial e buf _ j He Hs Hk) as (e' & p' & Er & Hp & T1 & T2 & T3).
    exists [e']. split; [|split; [lia | intros _; exists e'; auto]].
    remember (S (length buf) - length es1)%nat as f eqn:Ef.
    destruct f as [|[|f]]; [lia|lia|]. cbn [process_events].
    assert (Hne : eof (mkReader buf (0 + length (trace_bytes es1))) = false).
    { destruct (eof _) eqn:E; [|reflexivity].
      apply eof_skipn in E. rewrite Hs in E.
      apply (f_equal (@length Z)) in E. rewrite length_firstn in E. simpl in E. lia. }
    assert (Heof : eof (mkReader buf p') = true) by (apply eof_skipn; exact Hp).
    rewrite Hne, Er, Heof. reflexivity.
Qed.

Lemma truncated_trace_decoding_witness :
  exists extra,
    reader_main (firstn (length (trace_bytes []) + 3) (trace_bytes ([] ++ lock_event :: [])))
      = Some ([] ++ extra, 0).
Proof.
  assert (Hwf : Forall well_formed ([] ++ lock_event :: [])).
  { constructor; [|constructor].
    unfold well_formed, lock_event, is_u64, is_u32, is_i32, MAX_STACK_DEPTH; simpl.
    repeat split; try lia. constructor. }
  destruct (truncated_trace_decoding [] lock_event [] 3 Hwf ltac:(vm_compute; lia)
              ltac:(right; vm_compute; lia)) as [extra [E _]].
  exists extra. exact E.
Defined.

(** C4 as stated fails: cutting the one-record trace [[lock_event]] after
    three bytes makes the reader print a record that is not in the trace
    (its [ptr1] reads as 0), so the output is not a prefix of the trace's
    records. *)
Lemma truncated_trace_decoding_counterexample :
  well_formed lock_event /\
  reader_main (firstn 3 (trace_bytes [lock_event])) =
    Some ([mkEvent 5 7 (EventType_to_u8 MutexLock) 0 0 0 0 []], 0) /\
  ~ (exists k, reader_main (firstn 3 (trace_bytes [lock_event])) =
                 Some (firstn k [lock_event], 0)).
Proof.
  assert (E : reader_main (firstn 3 (trace_bytes [lock_event])) =
              Some ([mkEvent 5 7 (EventType_to_u8 MutexLock) 0 0 0 0 []], 0))
    by reflexivity.
  split; [|split; [exact E|]].
  - unfold well_formed, lock_event, is_u64, is_u32, is_i32, MAX_STACK_DEPTH; simpl.
    repeat split; try lia. constructor.
  - intros [k Hk]. rewrite E in Hk.
    destruct k as [|k]; cbn in Hk; inversion Hk.
Qed.

(** ** The shim's wrappers *)

Lemma log_effect (ty : EventType) (p1 p2 res dur : Z) (s : Shim) :
  in_hook (log ty p1 p2 res dur s) = in_hook s /\
  log_open (log ty p1 p2 res dur s) = log_open s /\
  (trace (log ty p1 p2 res dur s) = trace s \/
   exists e, trace (log ty p1 p2 res dur s) = trace s ++ [e] /\ ptr1 e = p1).
Proof.
  unfold log. destruct (initialized_ s); cbn -[firstn u64 u32]; [|auto].
  destruct (log_open s) eqn:Ho; cbn -[firstn u64 u32].
  - split; [reflexivity|]. split; [congruence|].
    right. eexists. split; reflexivity.
  - split; [reflexivity|]. split; [congruence|]. left. reflexivity.
Qed.

Lemma log_new (ty : EventType) (p1 p2 res dur : Z) (s : Shim) :
  exists new, trace (log ty p1 p2 res dur s) = trace s ++ new /\
              Forall (fun e => ptr1 e = p1) new.
Proof.
  destruct (log_effect ty p1 p2 res dur s) as (_ & _ & [E | (e & E & P)]).
  - exists []. rewrite app_nil_r. auto.
  - exists [e]. auto.
Qed.

Lemma call_real_effect (f : option Impl) (args : list Z) (s : Shim) :
  in_hook (outcome_state (call_real f args s)) = in_hook s /\
  trace (outcome_state (call_real f args s)) = trace s.
Proof.
  unfold call_real. destruct f as [g|]; simpl; auto.
Qed.

(** Every wrapper is [wrap_simple] or [wrap_blocking] on its own [real_*]
    pointer and arguments, logging the call's primary pointer as [ptr1]. *)
Lemma wrapper_shape (tbl : Table) (c : Call) :
  (is_blocking c = false /\ exists k p2,
     wrapper tbl c = wrap_simple (tbl (symbol_of c)) (args_of c) k (primary_ptr c) p2) \/
  (is_blocking c = true /\ exists k1 k2 p2,
     wrapper tbl c = wrap_blocking (tbl (symbol_of c)) (args_of c) k1 k2 (primary_ptr c) p2).
Proof.
  destruct c;
    first [ left; split; [reflexivity | do 2 eexists; reflexivity]
          | right; split; [reflexivity | do 3 eexists; reflexivity] ].
Qed.

Lemma wrap_simple_new (f : option Impl) (args : list Z) (k : EventType) (p1 p2 : Z)
    (s : Shim) :
  exists new, trace (outcome_state (wrap_simple f args k p1 p2 s)) = trace s ++ new /\
              Forall (fun e => ptr1 e = p1) new.
Proof.
  unfold wrap_simple. destruct (in_hook s).
  - exists []. rewrite app_nil_r. split; [apply call_real_effect | constructor].
  - pose proof (call_real_effect f args (set_in_hook true s)) as [_ Ec].
    destruct (call_real f args (set_in_hook true s)) as [r s1 | s1]; simpl in *.
    + destruct (log_new k p1 p2 r 0 s1) as (new & En & Pn).
      exists new. simpl. rewrite En, Ec. auto.
    + exists []. rewrite app_nil_r. auto.
Qed.

Lemma wrap_blocking_new (f : option Impl) (args : list Z) (k1 k2 : EventType)
    (p1 p2 : Z) (s : Shim) :
  exists new, trace (outcome_state (wrap_blocking f args k1 k2 p1 p2 s)) = trace s ++ new /\
              Forall (fun e => ptr1 e = p1) new.
Proof.
  unfold wrap_blocking. destruct (in_hook s).
  - exists []. rewrite app_nil_r. split; [apply call_real_effect | constructor].
  - cbn [steady_clock_now].
    set (s1 := log k1 p1 p2 0 0 (tick (set_in_hook true s))).
    destruct (log_new k1 p1 p2 0 0 (tick (set_in_hook true s))) as (n1 & E1 & P1).
    fold s1 in E1. cbn [trace tick set_in_hook] in E1.
    pose proof (call_real_effect f args s1) as [_ Ec].
    destruct (call_real f args s1) as [r s2 | s2]; cbn [outcome_state] in *.
    + match goal with |- context [log k2 p1 p2 r ?d ?s3] =>
        destruct (log_new k2 p1 p2 r d s3) as (n2 & E2 & P2) end.
      exists (n1 ++ n2). cbn [trace set_in_hook]. rewrite E2. cbn [trace tick].
      rewrite Ec, E1, app_assoc.
      split; [reflexivity | apply Forall_app; auto].
    + exists n1. rewrite Ec, E1. auto.
Qed.



(** ** C7: the [in_hook] recursion guard *)

(** C7: for every wrapped entry point, a call made while the thread's
    [in_hook] flag is set goes straight to the real implementation: the
    wrapper's outcome is the real call's, and no record is written.  A call
    made with the flag clear that returns leaves the flag clear again. *)
Theorem recursion_guard (tbl : Table) (c : Call) (s : Shim) :
  (in_hook s = true ->
     wrapper tbl c s = call_real (tbl (symbol_of c)) (args_of c) s /\
     trace (outcome_state (wrapper tbl c s)) = trace s) /\
  (in_hook s = false ->
     forall r s', wrapper tbl c s = Returned r s' -> in_hook s' = false).
Proof.
  destruct (wrapper_shape tbl c) as [[_ (k & p2 & E)] | [_ (k1 & k2 & p2 & E)]];
    rewrite E; split; intros H.
  - unfold wrap_simple. rewrite H. split; [reflexivity | apply call_real_effect].
  - intros r s' Ew. unfold wrap_simple in Ew. rewrite H in Ew.
    destruct (call_real _ _ _); inversion Ew; reflexivity.
  - unfold wrap_blocking. rewrite H. split; [reflexivity | apply call_real_effect].
  - intros r s' Ew. unfold wrap_blocking in Ew. rewrite H in Ew.
    cbn [steady_clock_now] in Ew.
    destruct (call_real _ _ _); inversion Ew; reflexivity.
Qed.

Lemma recursion_guard_witness :
  (wrapper tbl0 (call_mutex_lock 64) s_hooked =
     call_real (tbl0 Sym_mutex_lock) [64] s_hooked /\
   trace (outcome_state (wrapper tbl0 (call_mutex_lock 64) s_hooked)) = trace s_hooked) /\
  in_hook (outcome_state (wrapper tbl0 (call_mutex_lock 64) s0)) = false.
Proof.
  split.
  - exact (proj1 (recursion_guard tbl0 (call_mutex_lock 64) s_hooked) eq_refl).
  - destruct (wrapper tbl0 (call_mutex_lock 64) s0) as [r s' | s'] eqn:E.
    + exact (proj2 (recursion_guard tbl0 (call_mutex_lock 64) s0) eq_refl r s' E).
    + vm_compute in E. discriminate E.
Defined.

(** ** C8: the [ptr1] field *)

(** C8 (as amended): a wrapper call only appends to the trace, and every
    record it appends carries the call's primary object pointer (the mutex,
    rwlock, cond, or [pthread_t] handle address) as [ptr1], exactly as the
    caller passed it.  So [ptr1] is non-zero in those records whenever that
    argument is non-null; the shim itself does not check it. *)
Theorem logged_ptr1_primary (tbl : Table) (c : Call) (s : Shim) :
  exists new,
    trace (outcome_state (wrapper tbl c s)) = trace s ++ new /\
    Forall (fun e => ptr1 e = primary_ptr c) new /\
    (primary_ptr c <> 0 -> Forall (fun e => ptr1 e <> 0) new).
Proof.
  assert (Hnew : exists new,
    trace (outcome_state (wrapper tbl c s)) = trace s ++ new /\
    Forall (fun e => ptr1 e = primary_ptr c) new).
  { destruct (wrapper_shape tbl c) as [[_ (k & p2 & E)] | [_ (k1 & k2 & p2 & E)]];
      rewrite E; [apply wrap_simple_new | apply wrap_blocking_new]. }
  destruct Hnew as (new & E & P). exists new. split; [exact E | split; [exact P|]].
  intros Hp. eapply Forall_impl; [|exact P]. intros e He. simpl in He. congruence.
Qed.

Lemma logged_ptr1_primary_witness :
  exists new,
    trace (outcome_state (wrapper tbl0 (call_mutex_lock 64) s0)) = trace s0 ++ new /\
    new <> [] /\ Forall (fun e => ptr1 e <> 0) new.
Proof.
  destruct (logged_ptr1_primary tbl0 (call_mutex_lock 64) s0) as (new & E & _ & Hnz).
  exists new. split; [exact E|]. split.
  - intros ->. vm_compute in E. discriminate E.
  - apply Hnz. simpl. discriminate.
Defined.

(** C8 as stated fails: [pthread_mutex_lock(NULL)] through the shim, with
    any real [pthread_mutex_lock] or none, appends first its [MutexLock]
    pre-event, whose [ptr1] is 0; the wrapper writes it before it calls the
    real function. *)
Lemma logged_ptr1_counterexample :
  trace s0 = [] /\
  forall tbl : Table, exists e rest,
    trace (outcome_state (wrapper tbl (call_mutex_lock 0) s0)) = e :: rest /\
    type e = EventType_to_u8 MutexLock /\ ptr1 e = 0.
Proof.
  split; [reflexivity|]. intros tbl.
  cbn [wrapper]. unfold pthread_mutex_lock, wrap_blocking.
  cbn [in_hook s0 steady_clock_now].
  destruct (tbl Sym_mutex_lock) as [g|]; vm_compute; do 2 eexists;
    (split; [reflexivity | split; reflexivity]).
Qed.

(** ** C6: a symbol that fails to resolve *)




(** ** C10: timestamps in file order *)

Import LogOrder.

Lemma sorted_snoc (l : list Z) (x : Z) :
  Sorted Z.le l -> Forall (fun y => y <= x) l -> Sorted Z.le (l ++ [x]).
Proof.
  induction l as [|a l IH]; intros Hs Hf; simpl.
  - repeat constructor.
  - apply Sorted_inv in Hs as [Hs Hh]. inversion Hf as [|? ? Ha Hl]; subst.
    constructor; [apply IH; assumption|].
    destruct l as [|b l]; simpl; constructor.
    + exact Ha.
    + inversion Hh; assumption.
Qed.

Lemma set_pc_at (w : World) (t t' : nat) (p : Pc) :
  set_pc w t p t' = if Nat.eqb t' t then p else pc w t'.
Proof. reflexivity. Qed.

Lemma inv_init (c0 : Z) (ok : bool) :
  0 <= c0 < 2 ^ 63 -> inv (mkWorld None c0 ok (fun _ => Idle) []).
Proof.
  intros H. unfold inv; simpl.
  repeat split; try lia; try constructor; intros; discriminate.
Qed.

Lemma Forall_le_trans (l : list Event) (x y : Z) :
  x <= y -> Forall (fun e => timestamp e <= x) l -> Forall (fun e => timestamp e <= y) l.
Proof. intros Hxy H. eapply Forall_impl; [|exact H]. intros e He. simpl in *. lia. Qed.

Ltac pc_cases H t t' :=
  rewrite set_pc_at in H; destruct (Nat.eqb_spec t' t); [subst t'; try discriminate H|].

Ltac inv_split := split; [|split; [|split; [|split; [|split]]]].

Lemma inv_step (w w' : World) : inv w -> step w w' -> inv w'.
Proof.
  intros (Hn & Hs & Hf & HL & HS & HW) Hst.
  destruct Hst as [w t' Ht | w t a Hp | w t a Hp Ho | w t a Hp | w t a ts Hp | w t a Hp];
    unfold inv; simpl; inv_split.
  (* the clock advances *)
  - lia.
  - exact Hs.
  - eapply Forall_le_trans; [|exact Hf]. lia.
  - exact HL.
  - intros u b ts H. destruct (HS u b ts H) as (O & Le & F). split; [exact O|]. split; [lia | exact F].
  - exact HW.
  (* entering [log] *)
  - exact Hn.
  - exact Hs.
  - exact Hf.
  - intros u b H. pc_cases H t u. eauto.
  - intros u b ts H. pc_cases H t u. eauto.
  - intros u b H. pc_cases H t u. eauto.
  (* acquiring [write_mutex_] *)
  - exact Hn.
  - exact Hs.
  - exact Hf.
  - intros u b H. pc_cases H t u; [reflexivity|]. rewrite (HL u b H) in Ho. discriminate.
  - intros u b ts H. pc_cases H t u. destruct (HS u b ts H) as (O & _). congruence.
  - intros u b H. pc_cases H t u. rewrite (HW u b H) in Ho. discriminate.
  (* reading [steady_clock::now()] *)
  - exact Hn.
  - exact Hs.
  - exact Hf.
  - intros u b H. pc_cases H t u. eauto.
  - intros u b ts H. pc_cases H t u.
    + inversion H; subst.
      assert (Hu : u64 (now w) = now w) by (unfold u64; apply Z.mod_small; lia).
      rewrite Hu. split; [exact (HL t _ Hp)|]. split; [lia | exact Hf].
    + eauto.
  - intros u b H. pc_cases H t u. eauto.
  (* writing the record *)
  - exact Hn.
  - destruct (HS t a ts Hp) as (_ & _ & Ft).
    destruct (opened w); [|exact Hs].
    rewrite map_app. apply sorted_snoc; [exact Hs|].
    apply Forall_map. exact Ft.
  - destruct (HS t a ts Hp) as (_ & Lt & _).
    destruct (opened w); [|exact Hf].
    apply Forall_app. split; [exact Hf|]. constructor; [simpl; lia | constructor].
  - intros u b H. destruct (HS t a ts Hp) as (Ot & _).
    pc_cases H t u. rewrite (HL u b H) in Ot. congruence.
  - intros u b ts' H. destruct (HS t a ts Hp) as (Ot & _).
    pc_cases H t u. destruct (HS u b ts' H) as (O & _). congruence.
  - intros u b H. destruct (HS t a ts Hp) as (Ot & _).
    pc_cases H t u; [exact Ot|]. eauto.
  (* releasing [write_mutex_] *)
  - exact Hn.
  - exact Hs.
  - exact Hf.
  - intros u b H. pose proof (HW t a Hp) as Ot.
    pc_cases H t u. rewrite (HL u b H) in Ot. congruence.
  - intros u b ts H. pose proof (HW t a Hp) as Ot.
    pc_cases H t u. destruct (HS u b ts H) as (O & _). congruence.
  - intros u b H. pose proof (HW t a Hp) as Ot.
    pc_cases H t u. rewrite (HW u b H) in Ot. congruence.
Qed.

Lemma reachable_inv (w : World) : reachable w -> inv w.
Proof.
  induction 1 as [c0 ok Hc | w w' _ IH Hst].
  - apply inv_init. exact Hc.
  - exact (inv_step w w' IH Hst).
Qed.

(** C10: in every state reachable by threads running [EventLogger::log]
    concurrently, the records in the trace file are in non-decreasing
    timestamp order, whichever threads wrote them: each thread reads the
    clock only while it holds [write_mutex_] and appends its record before
    releasing it. *)
Theorem file_timestamps_sorted (w : World) :
  reachable w -> Sorted Z.le (map timestamp (file w)).
Proof. intros H. exact (proj1 (proj2 (reachable_inv w H))). Qed.

Ltac world_of R := match type of R with reachable ?w => exact w end.

Lemma file_timestamps_sorted_witness :
  exists w, reachable w /\ length (file w) = 2%nat /\
            Sorted Z.le (map timestamp (file w)).
Proof.
  set (a := mkArgs 3 64 0 0 0 []).
  set (w0 := mkWorld None 10 true (fun _ => Idle) []).
  assert (R0 : reachable w0) by (apply reach_init; lia).
  pose proof (reach_step _ _ R0 (step_enter w0 1 a eq_refl)) as R1.
  cbv [set_pc owner now opened pc file] in R1.
  pose proof (reach_step _ _ R1 (step_enter (ltac:(world_of R1)) 2 a eq_refl)) as R2.
  cbv [set_pc owner now opened pc file] in R2.
  pose proof (reach_step _ _ R2 (step_lock (ltac:(world_of R2)) 2 a eq_refl eq_refl)) as R3.
  cbv [set_pc owner now opened pc file] in R3.
  pose proof (reach_step _ _ R3 (step_clock (ltac:(world_of R3)) 2 a eq_refl)) as R4.
  cbv [set_pc owner now opened pc file] in R4.
  pose proof (reach_step _ _ R4 (step_write (ltac:(world_of R4)) 2 a (u64 10) eq_refl)) as R5.
  cbv [set_pc owner now opened pc file] in R5.
  pose proof (reach_step _ _ R5 (step_unlock (ltac:(world_of R5)) 2 a eq_refl)) as R6.
  cbv [set_pc owner now opened pc file] in R6.
  pose proof (reach_step _ _ R6 (step_tick (ltac:(world_of R6)) 25 ltac:(simpl; lia))) as R7.
  cbv [set_pc owner now opened pc file] in R7.
  pose proof (reach_step _ _ R7 (step_lock (ltac:(world_of R7)) 1 a eq_refl eq_refl)) as R8.
  cbv [set_pc owner now opened pc file] in R8.
  pose proof (reach_step _ _ R8 (step_clock (ltac:(world_of R8)) 1 a eq_refl)) as R9.
  cbv [set_pc owner now opened pc file] in R9.
  pose proof (reach_step _ _ R9 (step_write (ltac:(world_of R9)) 1 a (u64 25) eq_refl)) as R10.
  cbv [set_pc owner now opened pc file] in R10.
  eexists. split; [exact R10|]. split; [reflexivity|].
  exact (file_timestamps_sorted _ R10).
Defined.

(** * Further properties of the code *)

Lemma sample_event_well_formed : well_formed sample_event.
Proof.
  unfold well_formed, sample_event, is_u64, is_u32, is_i32; simpl.
  repeat split; try lia; [unfold MAX_STACK_DEPTH; lia|].
  apply Forall_forall. intros x Hx. simpl in Hx. unfold is_u64.
  intuition (subst; lia).
Qed.

(** ** Kind names printed by the reader *)

(** [eventTypeToString] gives every kind the writer can emit its own name,
    never ["Unknown"]; every byte from 33 on (a kind no enumerator has)
    prints as ["Unknown"]. *)
Theorem eventTypeToString_names :
  (forall t1 t2, eventTypeToString (EventType_to_u8 t1) =
                 eventTypeToString (EventType_to_u8 t2) -> t1 = t2) /\
  (forall t, eventTypeToString (EventType_to_u8 t) <> "Unknown"%string) /\
  (forall b, 33 <= b -> eventTypeToString b = "Unknown"%string).
Proof.
  split; [|split].
  - intros t1 t2 H. destruct t1, t2; try reflexivity; discriminate H.
  - intros t H. destruct t; discriminate H.
  - intros b Hb. destruct b as [|p|p]; [lia| |lia].
    do 6 (try (destruct p as [p|p|])); try lia; reflexivity.
Qed.

Lemma eventTypeToString_names_witness :
  eventTypeToString (EventType_to_u8 MutexLock) <>
    eventTypeToString (EventType_to_u8 MutexLockDone) /\
  eventTypeToString 200 = "Unknown"%string.
Proof.
  destruct eventTypeToString_names as (Hinj & _ & Hunk). split.
  - intros H. apply Hinj in H. discriminate H.
  - apply Hunk. lia.
Defined.

(** ** Shape of a varint *)

Lemma encode_loop_canonical (n : nat) : forall v,
  0 <= v < 2 ^ (7 * Z.of_nat (S n)) ->
  exists l b, encode_loop (S n) v = l ++ [b] /\
    Forall (fun x => 128 <= x < 256) l /\ 0 <= b < 128 /\ (0 < v -> 0 < b).
Proof.
  induction n as [|n IH]; intros v Hv; rewrite encode_loop_S.
  - assert (Hq : v / 128 = 0) by (apply Z.div_small; simpl in Hv; lia).
    rewrite Hq. simpl. exists [], (v mod 128).
    rewrite Z.mod_small by (simpl in Hv; lia).
    split; [reflexivity|]. split; [constructor|]. simpl in Hv. lia.
  - destruct (Z.eqb_spec (v / 128) 0) as [Hq|Hq].
    + exists [], (v mod 128). split; [reflexivity|]. split; [constructor|].
      assert (v < 128) by (pose proof (Z.div_mod v 128); pose proof (Z.mod_pos_bound v 128); lia).
      rewrite Z.mod_small by lia. lia.
    + assert (Hv' : 0 <= v / 128 < 2 ^ (7 * Z.of_nat (S n))).
      { split; [apply Z.div_pos; lia|].
        apply Z.div_lt_upper_bound; [lia|]. rewrite <- pow_7_succ. lia. }
      destruct (IH (v / 128) Hv') as (l & b & E & F & B & P).
      exists ((v mod 128 + 128) :: l), b. rewrite E. split; [reflexivity|].
      split; [constructor; [pose proof (Z.mod_pos_bound v 128); lia | exact F]|].
      split; [exact B|]. intros _. apply P.
      assert (0 <= v / 128) by (apply Z.div_pos; lia). lia.
Qed.

(** [encodeVarInt] of a non-negative value is canonical: every byte but
    the last has its continuation bit set, the last has it clear, and the
    last byte is zero only when it is the whole encoding (the value 0): no
    padding byte is ever written. *)
Theorem encodeVarInt_canonical (v : Z) :
  0 <= v ->
  exists l b, encodeVarInt v = l ++ [b] /\
    Forall (fun x => 128 <= x < 256) l /\ 0 <= b < 128 /\ (l <> [] -> b <> 0).
Proof.
  intros Hv. unfold encodeVarInt.
  destruct (encode_loop_canonical (Z.to_nat (Z.log2 v)) v
              (conj Hv (encodeVarInt_fuel v Hv))) as (l & b & E & F & B & P).
  exists l, b. split; [exact E|]. split; [exact F|]. split; [exact B|].
  intros Hl. destruct (Z.eq_dec v 0) as [->|Hne].
  - exfalso. apply Hl. cbn in E.
    destruct l as [|x [|y l]]; [reflexivity| discriminate E | discriminate E].
  - specialize (P ltac:(lia)). lia.
Qed.

Lemma encodeVarInt_canonical_witness :
  exists l b, encodeVarInt 300 = l ++ [b] /\
    Forall (fun x => 128 <= x < 256) l /\ 0 <= b < 128 /\ (l <> [] -> b <> 0).
Proof. apply encodeVarInt_canonical. lia. Defined.

(** ** Stack round trip *)

(** [readStack] reads back what [writeStack] wrote, for any number of
    64-bit frames below [2^32] (the [uint32_t] depth), and stops right after
    the last frame, whatever bytes follow. *)
Theorem writeStack_readStack (frames rest : list Z) :
  Forall is_u64 frames -> Z.of_nat (length frames) < 2 ^ 32 ->
  readStack (mkReader (buffer (w_writeStack (mkWriter []) frames) ++ rest) 0) =
  (frames, mkReader (buffer (w_writeStack (mkWriter []) frames) ++ rest)
             (length (buffer (w_writeStack (mkWriter []) frames)))).
Proof.
  intros Hf Hn.
  assert (Eb : buffer (w_writeStack (mkWriter []) frames) =
               encodeVarInt (Z.of_nat (length frames)) ++ concat (map encodeVarInt frames)).
  { unfold w_writeStack. rewrite w_writeStack_loop_buffer. reflexivity. }
  rewrite Eb. set (buf := (encodeVarInt (Z.of_nat (length frames)) ++
                           concat (map encodeVarInt frames)) ++ rest).
  unfold readStack.
  rewrite (readVarInt_at buf 0 (Z.of_nat (length frames))
             (concat (map encodeVarInt frames) ++ rest))
    by (unfold is_u64; lia || (unfold buf; rewrite app_assoc; reflexivity)).
  assert (Hu : Z.to_nat (u32 (Z.of_nat (length frames))) = length frames).
  { unfold u32. rewrite Z.mod_small by lia. apply Nat2Z.id. }
  rewrite Hu.
  rewrite (read_frames_at frames buf _ rest Hf).
  - rewrite length_app. reflexivity.
  - apply (skipn_after buf (encodeVarInt (Z.of_nat (length frames))) _ 0).
    unfold buf. rewrite <- app_assoc. reflexivity.
Qed.

Lemma writeStack_readStack_witness :
  readStack (mkReader (buffer (w_writeStack (mkWriter []) [1; 2 ^ 63; 777]) ++ [5]) 0) =
  ([1; 2 ^ 63; 777],
   mkReader (buffer (w_writeStack (mkWriter []) [1; 2 ^ 63; 777]) ++ [5])
     (length (buffer (w_writeStack (mkWriter []) [1; 2 ^ 63; 777])))).
Proof.
  apply writeStack_readStack.
  - repeat constructor; unfold is_u64; lia.
  - simpl. lia.
Defined.

(** ** Size of a record *)

Lemma frames_length_le (fs : list Z) :
  Forall is_u64 fs -> (length (concat (map encodeVarInt fs)) <= 10 * length fs)%nat.
Proof.
  induction 1 as [|f fs Hf _ IH]; [simpl; lia|].
  simpl. rewrite length_app.
  assert (length (encodeVarInt f) <= 10)%nat
    by (apply encodeVarInt_length_le; unfold is_u64 in Hf; cbn; lia).
  lia.
Qed.

Lemma u64_length_le (v : Z) : is_u64 v -> (length (encodeVarInt v) <= 10)%nat.
Proof. intros Hv. unfold is_u64 in Hv. apply encodeVarInt_length_le; cbn; lia. Qed.

(** Every well-formed record takes between 8 bytes (all fields zero, empty
    stack) and 217 bytes (ten bytes for each 64-bit field and each of the 16
    frames, five for the tid, one for the kind and one for the depth). *)
Theorem serialize_length_bounds (e : Event) :
  well_formed e -> (8 <= length (serialize e) <= 217)%nat.
Proof.
  intros (Hts & Htid & Hty & Hp1 & Hp2 & Hres & Hdur & Hlen & Hst).
  rewrite serialize_layout. rewrite !length_app. cbn [length].
  pose proof (u64_length_le _ Hts). pose proof (u64_length_le _ Hp1).
  pose proof (u64_length_le _ Hp2). pose proof (u64_length_le _ Hdur).
  pose proof (u64_length_le _ (u64_range (result e))).
  assert (length (encodeVarInt (tid e)) <= 5)%nat
    by (apply encodeVarInt_length_le; unfold is_u32 in Htid; cbn; lia).
  assert (length (encodeVarInt (Z.of_nat (length (stack e)))) <= 1)%nat
    by (apply encodeVarInt_length_le; unfold MAX_STACK_DEPTH in Hlen; cbn; lia).
  pose proof (frames_length_le _ Hst).
  pose proof (encodeVarInt_nonempty (timestamp e)).
  pose proof (encodeVarInt_nonempty (tid e)).
  pose proof (encodeVarInt_nonempty (ptr1 e)).
  pose proof (encodeVarInt_nonempty (ptr2 e)).
  pose proof (encodeVarInt_nonempty (u64 (result e))).
  pose proof (encodeVarInt_nonempty (duration_ns e)).
  pose proof (encodeVarInt_nonempty (Z.of_nat (length (stack e)))).
  unfold MAX_STACK_DEPTH in Hlen. lia.
Qed.

Lemma serialize_length_bounds_witness :
  (8 <= length (serialize sample_event) <= 217)%nat.
Proof.
  apply serialize_length_bounds. exact sample_event_well_formed.
Defined.

(** ** Whole traces *)

(** The reader decodes any sequence of well-formed records written back to
    back exactly, in order, and exits 0: every record starts where the
    previous one ends. *)
Theorem trace_decodes_exactly (es : list Event) :
  Forall well_formed es -> reader_main (trace_bytes es) = Some (es, 0).
Proof. apply reader_main_trace. Qed.

Lemma trace_decodes_exactly_witness :
  reader_main (trace_bytes [sample_event; sample_event]) =
    Some ([sample_event; sample_event], 0).
Proof.
  apply trace_decodes_exactly.
  constructor; [exact sample_event_well_formed|].
  constructor; [exact sample_event_well_formed | constructor].
Defined.

(** ** Printed time offsets *)

Lemma print_offsets_from (t0 : Z) (es : list Event) :
  0 < t0 -> Forall (fun e => t0 <= timestamp e < 2 ^ 64) es ->
  print_offsets t0 es = map (fun e => timestamp e - t0) es.
Proof.
  intros Ht0 H. induction H as [|e es He _ IH]; [reflexivity|].
  simpl. destruct (Z.eqb_spec t0 0) as [|_]; [lia|].
  rewrite IH. f_equal. unfold u64. apply Z.mod_small. lia.
Qed.

(** When the first record's timestamp is non-zero and the timestamps are in
    file order (as [EventLogger::log] writes them), the reader's offsets are
    the plain differences from the first timestamp: the [uint64_t]
    subtraction never wraps, and they start at 0 and never decrease. *)
Theorem print_offsets_sorted (e0 : Event) (es : list Event) :
  timestamp e0 <> 0 -> Forall (fun e => is_u64 (timestamp e)) (e0 :: es) ->
  Sorted Z.le (map timestamp (e0 :: es)) ->
  print_offsets 0 (e0 :: es) = map (fun e => timestamp e - timestamp e0) (e0 :: es) /\
  Sorted Z.le (print_offsets 0 (e0 :: es)).
Proof.
  intros H0 Hr Hs.
  assert (E : print_offsets 0 (e0 :: es) =
              map (fun e => timestamp e - timestamp e0) (e0 :: es)).
  { cbn [print_offsets]. rewrite Z.eqb_refl.
    apply Sorted_StronglySorted in Hs; [|intros x y z; lia].
    apply StronglySorted_inv in Hs as [_ Hge].
    inversion Hr as [|? ? Hr0 Hr']; subst. unfold is_u64 in Hr0.
    assert (Hf : Forall (fun e => timestamp e0 <= timestamp e < 2 ^ 64) es).
    { change (Forall (Z.le (timestamp e0)) (map timestamp es)) in Hge.
      rewrite Forall_map in Hge. rewrite Forall_forall in *.
      intros e He. specialize (Hge e He). specialize (Hr' e He). unfold is_u64 in Hr'.
      lia. }
    rewrite (print_offsets_from (timestamp e0) es ltac:(lia) Hf).
    simpl. rewrite Z.sub_diag. reflexivity. }
  split; [exact E|]. rewrite E.
  clear E Hr H0. revert Hs. generalize (timestamp e0) as t0. intros t0.
  generalize (e0 :: es) as l. intros l Hs.
  induction l as [|a l IH]; [constructor|].
  apply Sorted_inv in Hs as [Hs Hh]. simpl. constructor; [exact (IH Hs)|].
  destruct l as [|b l]; simpl; constructor. simpl in Hh. inversion Hh. lia.
Qed.

Lemma print_offsets_sorted_witness :
  print_offsets 0 [mkEvent 100 1 3 64 0 0 0 []; mkEvent 250 2 4 64 0 0 0 []] = [0; 150].
Proof.
  destruct (print_offsets_sorted (mkEvent 100 1 3 64 0 0 0 []) [mkEvent 250 2 4 64 0 0 0 []])
    as [E _].
  - discriminate.
  - repeat constructor; simpl; lia.
  - repeat constructor; simpl; lia.
  - rewrite E. reflexivity.
Defined.

(** ** Wrappers: results, records and the logger's state *)

(** Every wrapper is [wrap_simple] or [wrap_blocking] on its own [real_*]
    pointer and arguments, with the kind named after the call; a blocking
    wrapper's done-event is the kind of the same name followed by "Done". *)
Lemma wrapper_shape2 (tbl : Table) (c : Call) :
  (is_blocking c = false /\
     wrapper tbl c = wrap_simple (tbl (symbol_of c)) (args_of c) (event_of_call c)
                       (primary_ptr c) (secondary_ptr c)) \/
  (is_blocking c = true /\ exists k2,
     eventTypeToString (EventType_to_u8 k2) =
       (eventTypeToString (EventType_to_u8 (event_of_call c)) ++ "Done")%string /\
     wrapper tbl c = wrap_blocking (tbl (symbol_of c)) (args_of c) (event_of_call c) k2
                       (primary_ptr c) (secondary_ptr c)).
Proof.
  destruct c;
    first [ left; split; reflexivity
          | right; split; [reflexivity | eexists; split; [|reflexivity]; reflexivity] ].
Qed.

Ltac shim_unfold :=
  unfold wrap_simple, wrap_blocking, call_real, log, append_record, set_in_hook,
    tick, steady_clock_now, backtrace in *.

(** [log] keeps the logger's flags and the platform, and makes two
    platform reads once the logger is initialized. *)
Lemma log_fields (ty : EventType) (p1 p2 res dur : Z) (s : Shim) :
  initialized_ (log ty p1 p2 res dur s) = initialized_ s /\
  log_open (log ty p1 p2 res dur s) = log_open s /\
  gettid (log ty p1 p2 res dur s) = gettid s /\
  steady_at (log ty p1 p2 res dur s) = steady_at s /\
  backtrace_at (log ty p1 p2 res dur s) = backtrace_at s /\
  ticks (log ty p1 p2 res dur s) = (if initialized_ s then 2 + ticks s else ticks s)%nat.
Proof.
  unfold log. destruct (initialized_ s) eqn:Hi; cbn -[firstn u64 u32];
    [|rewrite Hi; repeat split].
  destruct (log_open s) eqn:Ho; cbn -[firstn u64 u32]; rewrite ?Hi, ?Ho; repeat split.
Qed.

(** A wrapper call leaves the logger's flags, the thread id and the
    platform as they were. *)
Lemma wrapper_frame (tbl : Table) (c : Call) (s : Shim) :
  initialized_ (outcome_state (wrapper tbl c s)) = initialized_ s /\
  log_open (outcome_state (wrapper tbl c s)) = log_open s /\
  gettid (outcome_state (wrapper tbl c s)) = gettid s /\
  steady_at (outcome_state (wrapper tbl c s)) = steady_at s /\
  backtrace_at (outcome_state (wrapper tbl c s)) = backtrace_at s.
Proof.
  destruct (wrapper_shape2 tbl c) as [[_ ->] | [_ (k2 & _ & ->)]];
    shim_unfold; destruct (in_hook s), (tbl (symbol_of c)) as [g|]; cbn -[firstn u64 u32];
    repeat split;
    destruct (initialized_ s); cbn -[firstn u64 u32]; auto;
    destruct (log_open s); cbn -[firstn u64 u32]; auto.
Qed.







Lemma log_closed (ty : EventType) (p1 p2 res dur : Z) (s : Shim) :
  initialized_ s = false \/ log_open s = false ->
  trace (log ty p1 p2 res dur s) = trace s.
Proof.
  intros H. unfold log. destruct (initialized_ s), (log_open s) eqn:Ho;
    cbn -[firstn u64 u32]; rewrite ?Ho; auto.
  destruct H; discriminate.
Qed.

(** Before [EventLogger::init], or when it failed to open the trace file,
    no wrapper call writes a record (the calls are still forwarded), and the
    logger's state stays so for every later call. *)
Theorem no_record_without_open_log (tbl : Table) (c : Call) (s : Shim) :
  initialized_ s = false \/ log_open s = false ->
  trace (outcome_state (wrapper tbl c s)) = trace s /\
  initialized_ (outcome_state (wrapper tbl c s)) = initialized_ s /\
  log_open (outcome_state (wrapper tbl c s)) = log_open s.
Proof.
  intros H. pose proof (wrapper_frame tbl c s) as (Fi & Fo & _).
  split; [|split; assumption].
  destruct (wrapper_shape2 tbl c) as [[_ ->] | [_ (k2 & _ & ->)]].
  - unfold wrap_simple. destruct (in_hook s); [apply call_real_effect|].
    destruct (tbl (symbol_of c)) as [g|]; [|reflexivity].
    cbn [call_real outcome_state trace set_in_hook].
    rewrite log_closed by exact H. reflexivity.
  - unfold wrap_blocking. destruct (in_hook s); [apply call_real_effect|].
    cbn [steady_clock_now].
    pose proof (log_fields (event_of_call c) (primary_ptr c) (secondary_ptr c) 0 0
                  (tick (set_in_hook true s))) as (I1 & O1 & _).
    cbn [initialized_ log_open tick set_in_hook] in I1, O1.
    destruct (tbl (symbol_of c)) as [g|].
    + cbn [call_real outcome_state trace set_in_hook steady_clock_now].
      rewrite log_closed by (cbn [initialized_ log_open tick]; rewrite I1, O1; exact H).
      cbn [trace tick]. rewrite log_closed by exact H. reflexivity.
    + cbn [call_real outcome_state]. rewrite log_closed by exact H. reflexivity.
Qed.

Lemma no_record_without_open_log_witness :
  trace (outcome_state (wrapper tbl0 (call_mutex_lock 64) (EventLogger_init false s_unopened))) = [].
Proof.
  exact (proj1 (no_record_without_open_log tbl0 (call_mutex_lock 64)
                  (EventLogger_init false s_unopened) (or_intror eq_refl))).
Defined.

(** ** Records written by the shim are well formed *)

Lemma Forall_firstn {A} (P : A -> Prop) (n : nat) (l : list A) :
  Forall P l -> Forall P (firstn n l).
Proof.
  revert l. induction n as [|n IH]; intros l H; [constructor|].
  destruct H as [|x l Hx H]; cbn; constructor; auto.
Qed.

Lemma EventType_to_u8_range (ty : EventType) : 0 <= EventType_to_u8 ty < 33.
Proof. destruct ty; cbn; lia. Qed.

Lemma log_wf (ty : EventType) (p1 p2 res dur : Z) (s : Shim) :
  is_u64 p1 -> is_u64 p2 -> is_i32 res -> is_u64 dur ->
  (forall n, Forall is_u64 (backtrace_at s n)) -> Forall well_formed (trace s) ->
  Forall well_formed (trace (log ty p1 p2 res dur s)).
Proof.
  intros H1 H2 Hr Hd Hf Ht. unfold log.
  destruct (initialized_ s); cbn -[firstn u64 u32]; [|exact Ht].
  destruct (log_open s); cbn -[firstn u64 u32]; [|exact Ht].
  apply Forall_app. split; [exact Ht|]. constructor; [|constructor].
  unfold well_formed; cbn -[firstn u64 u32].
  pose proof (EventType_to_u8_range ty).
  split; [apply u64_range|]. split; [unfold is_u32, u32; apply Z.mod_pos_bound; lia|].
  split; [lia|]. do 4 (split; [assumption|]).
  split; [rewrite length_firstn; lia|]. apply Forall_firstn. apply Hf.
Qed.

Lemma wrap_simple_wf (f : option Impl) (args : list Z) (k : EventType) (p1 p2 : Z)
    (s : Shim) :
  (forall g, f = Some g -> forall a n, is_i32 (g a n)) ->
  is_u64 p1 -> is_u64 p2 -> (forall n, Forall is_u64 (backtrace_at s n)) ->
  Forall well_formed (trace s) ->
  Forall well_formed (trace (outcome_state (wrap_simple f args k p1 p2 s))).
Proof.
  intros Hg H1 H2 Hf Ht. unfold wrap_simple.
  destruct (in_hook s); [rewrite (proj2 (call_real_effect f args s)); exact Ht|].
  destruct f as [g|]; [|exact Ht].
  cbn [call_real outcome_state trace set_in_hook].
  apply log_wf;
    [exact H1 | exact H2 | exact (Hg g eq_refl args _) | unfold is_u64; lia
    | exact Hf | exact Ht].
Qed.

Lemma wrap_blocking_wf (f : option Impl) (args : list Z) (k1 k2 : EventType)
    (p1 p2 : Z) (s : Shim) :
  (forall g, f = Some g -> forall a n, is_i32 (g a n)) ->
  is_u64 p1 -> is_u64 p2 -> (forall n, Forall is_u64 (backtrace_at s n)) ->
  Forall well_formed (trace s) ->
  Forall well_formed (trace (outcome_state (wrap_blocking f args k1 k2 p1 p2 s))).
Proof.
  intros Hg H1 H2 Hf Ht. unfold wrap_blocking.
  destruct (in_hook s); [rewrite (proj2 (call_real_effect f args s)); exact Ht|].
  cbn [steady_clock_now].
  assert (W1 : Forall well_formed (trace (log k1 p1 p2 0 0 (tick (set_in_hook true s)))))
    by (apply log_wf; auto; unfold is_u64, is_i32; lia).
  pose proof (log_fields k1 p1 p2 0 0 (tick (set_in_hook true s))) as (_ & _ & _ & _ & B1 & _).
  cbn [backtrace_at tick set_in_hook] in B1.
  set (s1 := log k1 p1 p2 0 0 (tick (set_in_hook true s))) in *.
  destruct f as [g|]; [|exact W1].
  cbn [call_real outcome_state trace set_in_hook steady_clock_now].
  apply log_wf;
    [exact H1 | exact H2 | exact (Hg g eq_refl args _) | apply u64_range
    | cbn [backtrace_at tick]; rewrite B1; exact Hf | exact W1].
Qed.

Lemma call_ptrs_in_args (c : Call) :
  In (primary_ptr c) (args_of c) /\
  (secondary_ptr c = 0 \/ In (secondary_ptr c) (args_of c)).
Proof. destruct c; cbn; auto 6. Qed.

(** When every argument of a call is a 64-bit pointer (as all pthread
    arguments are), the captured frames are 64-bit addresses and every
    resolved real function returns an [int], the records a wrapper call
    appends are well formed; so the reader decodes the resulting trace file
    back into exactly the records the shim wrote, and exits 0. *)
Theorem wrapper_trace_decodable (tbl : Table) (c : Call) (s : Shim) :
  (forall x g, tbl x = Some g -> forall a n, is_i32 (g a n)) ->
  Forall is_u64 (args_of c) -> (forall n, Forall is_u64 (backtrace_at s n)) ->
  Forall well_formed (trace s) ->
  Forall well_formed (trace (outcome_state (wrapper tbl c s))) /\
  reader_main (trace_bytes (trace (outcome_state (wrapper tbl c s)))) =
    Some (trace (outcome_state (wrapper tbl c s)), 0).
Proof.
  intros Hg Ha Hf Ht.
  assert (Hg' : forall g, tbl (symbol_of c) = Some g -> forall a n, is_i32 (g a n))
    by (intros g E; exact (Hg _ g E)).
  destruct (call_ptrs_in_args c) as [P1 P2].
  rewrite Forall_forall in Ha.
  assert (H1 : is_u64 (primary_ptr c)) by (apply Ha; exact P1).
  assert (H2 : is_u64 (secondary_ptr c))
    by (destruct P2 as [E|E]; [rewrite E; unfold is_u64; lia | apply Ha; exact E]).
  assert (W : Forall well_formed (trace (outcome_state (wrapper tbl c s)))).
  { destruct (wrapper_shape2 tbl c) as [[_ ->] | [_ (k2 & _ & ->)]].
    - apply wrap_simple_wf; assumption.
    - apply wrap_blocking_wf; assumption. }
  split; [exact W|]. apply reader_main_trace. exact W.
Qed.

Lemma wrapper_trace_decodable_witness :
  reader_main (trace_bytes (trace (outcome_state (wrapper tbl0 (call_cond_wait 80 64) s0)))) =
    Some (trace (outcome_state (wrapper tbl0 (call_cond_wait 80 64) s0)), 0).
Proof.
  apply wrapper_trace_decodable.
  - intros x g E a n. unfold tbl0 in E. injection E as <-. unfold impl0, is_i32. lia.
  - repeat constructor; unfold is_u64; lia.
  - intros n. unfold s0, stacks0. cbn [backtrace_at].
    pose proof (Nat.mod_upper_bound n 8).
    repeat constructor; unfold is_u64; lia.
  - constructor.
Defined.
